(** * ITRANS to Devanagari transliteration: a shallow embedding of
      [itrans_to_devanagari.py] and the properties of its scanner.

    Python strings are sequences of Unicode code points, so a [str] is a
    list of code points ([N]).  The tables are written with the same
    literals as the source; [U] decodes the UTF-8 bytes of a literal into
    code points.  Dictionaries are association lists in declaration
    order, because [dict.keys()] and the stable [sorted] depend on it. *)

From Stdlib Require Import String Ascii.
From Stdlib Require Import List NArith Arith Bool Lia.
From Stdlib Require Import Sorting.Sorted Sorting.Permutation.
Import ListNotations.

(* ================================================================= *)
(** ** Code points and strings *)

Definition codepoint := N.
Definition str := list codepoint.

Module Utf8.

(** Bytes of a literal, as numbers. *)
Definition bytes (s : string) : list N :=
  map N_of_ascii (list_ascii_of_string s).

(** Payload of a continuation byte [10xxxxxx]. *)
Definition cont (b : N) : N := N.land b 63.

(** UTF-8 decoding of well-formed input (1 to 4 byte sequences). *)
Fixpoint decode (bs : list N) : str :=
  match bs with
  | [] => []
  | b0 :: r0 =>
      if (b0 <? 128)%N then b0 :: decode r0
      else if (b0 <? 224)%N then
        match r0 with
        | b1 :: r1 => (N.land b0 31 * 64 + cont b1)%N :: decode r1
        | [] => []
        end
      else if (b0 <? 240)%N then
        match r0 with
        | b1 :: b2 :: r2 =>
            (N.land b0 15 * 4096 + cont b1 * 64 + cont b2)%N :: decode r2
        | _ => []
        end
      else
        match r0 with
        | b1 :: b2 :: b3 :: r3 =>
            (N.land b0 7 * 262144 + cont b1 * 4096 + cont b2 * 64 + cont b3)%N
              :: decode r3
        | _ => []
        end
  end.

End Utf8.

(** The code points of a string literal. *)
Definition U (s : string) : str := Utf8.decode (Utf8.bytes s).

Definition str_eqb (a b : str) : bool :=
  if list_eq_dec N.eq_dec a b then true else false.

(** [s.startswith(p)] *)
Fixpoint startswith (s p : str) {struct p} : bool :=
  match p with
  | [] => true
  | a :: p' =>
      match s with
      | [] => false
      | b :: s' => (b =? a)%N && startswith s' p'
      end
  end.

(** [text[i:]]; a start beyond the end gives the empty string. *)
Definition slice_from (text : str) (i : nat) : str := skipn i text.

(** [sub in s] *)
Fixpoint contains (s sub : str) : bool :=
  startswith s sub ||
  match s with
  | [] => false
  | _ :: s' => contains s' sub
  end.

(** [str.isspace] on one code point: the ASCII white space of CPython's
    table and the Unicode white space of its character database. *)
Definition isspace (c : codepoint) : bool :=
  ((9 <=? c) && (c <=? 13) || (28 <=? c) && (c <=? 32)
   || (c =? 133) || (c =? 160) || (c =? 5760)
   || (8192 <=? c) && (c <=? 8202)
   || (c =? 8232) || (c =? 8233) || (c =? 8239) || (c =? 8287)
   || (c =? 12288))%N.

(** [s.split()]: the maximal runs of non-space characters; [cur] is the
    word being read. *)
Fixpoint split_from (s cur : str) : list str :=
  match s with
  | [] => match cur with [] => [] | _ => [cur] end
  | c :: r =>
      if isspace c then
        match cur with
        | [] => split_from r []
        | _ => cur :: split_from r []
        end
      else split_from r (cur ++ [c])
  end.

Definition split (s : str) : list str := split_from s [].

(** [sep.join(words)] *)
Fixpoint join (sep : str) (words : list str) : str :=
  match words with
  | [] => []
  | [w] => w
  | w :: ws => w ++ sep ++ join sep ws
  end.

(** Lower case of an ASCII code point. *)
Definition ascii_lower (c : codepoint) : codepoint :=
  if ((65 <=? c) && (c <=? 90))%N then (c + 32)%N else c.

Definition is_ascii (c : codepoint) : bool := (c <? 128)%N.

(* ================================================================= *)
(** ** Dictionaries *)

Definition dict := list (str * str).

Definition keys (d : dict) : list str := map fst d.

(** [d.get(k)]: [None] when the key is absent. *)
Fixpoint dict_get (d : dict) (k : str) : option str :=
  match d with
  | [] => None
  | (k', v) :: d' => if str_eqb k' k then Some v else dict_get d' k
  end.

(** Truth value of what [dict.get] returns: [None] and the empty string
    are false. *)
Definition truthy (v : option str) : bool :=
  match v with
  | Some (_ :: _) => true
  | _ => false
  end.

(** [sorted(ks, key=len, reverse=True)]: Python's sort is stable, also
    with [reverse=True], so equal lengths keep their order. *)
Fixpoint insert_by_len (x : str) (l : list str) : list str :=
  match l with
  | [] => [x]
  | y :: l' =>
      if length x <? length y then y :: insert_by_len x l'
      else x :: y :: l'
  end.

Fixpoint sorted_by_len_desc (l : list str) : list str :=
  match l with
  | [] => []
  | x :: l' => insert_by_len x (sorted_by_len_desc l')
  end.

(* ================================================================= *)
(** ** The transliteration scheme *)

Definition entry (k v : string) : str * str := (U k, U v).

Definition VOWELS : dict := Eval vm_compute in
  [ entry "a" "अ";
    entry "aa" "आ"; entry "A" "आ";
    entry "i" "इ";
    entry "ii" "ई"; entry "I" "ई";
    entry "u" "उ";
    entry "uu" "ऊ"; entry "U" "ऊ";
    entry "RRi" "ऋ"; entry "R^i" "ऋ";
    entry "RRI" "ॠ"; entry "R^I" "ॠ";
    entry "LLi" "ऌ"; entry "L^i" "ऌ";
    entry "LLI" "ॡ"; entry "L^I" "ॡ";
    entry "e" "ए";
    entry "ai" "ऐ"; entry "E" "ऐ";
    entry "o" "ओ";
    entry "au" "औ"; entry "O" "औ";
    entry "M" "ं";
    entry "H" "ः";
    entry "." "।";
    entry ".." "॥" ].

Definition CONSONANTS : dict := Eval vm_compute in
  [ entry "k" "क"; entry "kh" "ख"; entry "g" "ग"; entry "gh" "घ";
    entry "~N" "ङ"; entry "N^" "ङ";
    entry "ch" "च"; entry "Ch" "छ"; entry "chh" "छ"; entry "j" "ज";
    entry "jh" "झ"; entry "~n" "ञ"; entry "JN" "ञ"; entry "j~n" "ज्ञ";
    entry "GY" "ज्ञ";
    entry "T" "ट"; entry "Th" "ठ"; entry "D" "ड"; entry "Dh" "ढ";
    entry "N" "ण";
    entry "t" "त"; entry "th" "थ"; entry "d" "द"; entry "dh" "ध";
    entry "n" "न";
    entry "p" "प"; entry "ph" "फ"; entry "b" "ब"; entry "bh" "भ";
    entry "m" "म";
    entry "y" "य"; entry "r" "र"; entry "l" "ल"; entry "v" "व";
    entry "w" "व";
    entry "sh" "श"; entry "Sh" "ष"; entry "S" "ष"; entry "s" "स";
    entry "h" "ह";
    entry "x" "क्ष" ].

Definition MATRAS : dict := Eval vm_compute in
  [ entry "aa" "ा"; entry "A" "ा";
    entry "i" "ि";
    entry "ii" "ी"; entry "I" "ी";
    entry "u" "ु";
    entry "uu" "ू"; entry "U" "ू";
    entry "RRi" "ृ"; entry "R^i" "ृ";
    entry "RRI" "ॄ"; entry "R^I" "ॄ";
    entry "e" "े";
    entry "ai" "ै"; entry "E" "ै";
    entry "o" "ो";
    entry "au" "ौ"; entry "O" "ौ" ].

Definition SPECIAL : dict := Eval vm_compute in
  [ entry "M" "ं";
    entry "H" "ः";
    entry "." "।";
    entry ".." "॥" ].

(** The pattern indexes built by [__init__]. *)
Definition vowel_patterns : list str :=
  Eval vm_compute in sorted_by_len_desc (keys VOWELS).
Definition consonant_patterns : list str :=
  Eval vm_compute in sorted_by_len_desc (keys CONSONANTS).
Definition matra_patterns : list str :=
  Eval vm_compute in sorted_by_len_desc (keys MATRAS).

(** [SPECIAL.keys()], which the scanner iterates as it is. *)
Definition special_keys : list str := Eval vm_compute in keys SPECIAL.

Definition special_cases : dict := Eval vm_compute in
  [ entry "shri" "shrii";
    entry "bharat" "bhaarat";
    entry "sanskrit" "saMskR^it";
    entry "hindi" "hiMdii" ].

Definition space : codepoint := 32%N.
Definition anusvara : str := Eval vm_compute in U "ं".
Definition halant : str := Eval vm_compute in U "्".
Definition pat_a : str := Eval vm_compute in U "a".
Definition pat_n : str := Eval vm_compute in U "n".

(* ================================================================= *)
(** ** Outcomes of a call: a value, a Python exception, or an exhausted
       iteration budget of the [while] loop *)

Inductive exn : Type := IndexError | KeyError | TypeError.

Inductive outcome (A : Type) : Type :=
| Ok (a : A)
| Raise (e : exn)
| OutOfFuel.

Arguments Ok {A} a.
Arguments Raise {A} e.
Arguments OutOfFuel {A}.

Definition bind {A B : Type} (m : outcome A) (k : A -> outcome B) : outcome B :=
  match m with
  | Ok a => k a
  | Raise e => Raise e
  | OutOfFuel => OutOfFuel
  end.

Notation "x <- m ;; k" := (bind m (fun x => k))
  (at level 61, m at next level, right associativity).

(** The output buffer [result]: a Python list whose elements are what the
    code appends, strings or the [None] a [dict.get] may return. *)
Definition buffer := list (option str).

(** [text[i]] *)
Definition getitem (text : str) (i : nat) : outcome codepoint :=
  match nth_error text i with
  | Some c => Ok c
  | None => Raise IndexError
  end.

(** [d[k]] *)
Definition dict_index (d : dict) (k : str) : outcome str :=
  match dict_get d k with
  | Some v => Ok v
  | None => Raise KeyError
  end.

(** [result[-1] = v] *)
Definition set_last (result : buffer) (v : option str) : outcome buffer :=
  match result with
  | [] => Raise IndexError
  | _ => Ok (removelast result ++ [v])
  end.

(** [''.join(result)]: a [None] element is a [TypeError]. *)
Fixpoint join_result (result : buffer) : outcome str :=
  match result with
  | [] => Ok []
  | Some s :: r => t <- join_result r ;; Ok (s ++ t)
  | None :: _ => Raise TypeError
  end.

(* ================================================================= *)
(** ** The scanner, lines 116-234 of [translate] *)

Section Scanner.

Variable text : str.

(** Does a pattern match at position [pos]? *)
Definition matches_at (pos : nat) (pattern : str) : bool :=
  startswith (slice_from text pos) pattern.

(** Lines 139-150: the matra look-ahead after a consonant.  [Some]
    carries the new [i] and [result] when [matra_found] is set. *)
Fixpoint matra_lookahead (pats : list str) (next_pos : nat) (result : buffer)
  : option (nat * buffer) :=
  match pats with
  | [] => None
  | matra_pattern :: pats' =>
      if matches_at next_pos matra_pattern then
        if str_eqb matra_pattern pat_a then Some (next_pos + 1, result)
        else Some (next_pos + length matra_pattern,
                   result ++ [dict_get MATRAS matra_pattern])
      else matra_lookahead pats' next_pos result
  end.

(** Lines 154-165: the independent-vowel look-ahead; when the glyph is
    false the cursor [i] stays where it was. *)
Fixpoint vowel_lookahead (pats : list str) (next_pos i : nat) (result : buffer)
  : option (nat * buffer) :=
  match pats with
  | [] => None
  | vowel_pattern :: pats' =>
      if matches_at next_pos vowel_pattern then
        if str_eqb vowel_pattern pat_a then Some (next_pos + 1, result)
        else
          let vowel := dict_get VOWELS vowel_pattern in
          if truthy vowel
          then Some (next_pos + length vowel_pattern, result ++ [vowel])
          else Some (i, result)
      else vowel_lookahead pats' next_pos i result
  end.

(** Lines 177-200: the conjunct mark. *)
Definition conjunct_mark (next_pos : nat) (result : buffer) : outcome buffer :=
  if next_pos <? length text then
    c <- getitem text next_pos ;;
    if negb (c =? space)%N then
      let next_is_consonant := existsb (matches_at next_pos) consonant_patterns in
      if next_is_consonant then
        let is_vowel_or_special :=
          existsb (matches_at next_pos) vowel_patterns
          || existsb (matches_at next_pos) special_keys in
        if negb is_vowel_or_special
        then Ok (result ++ [Some halant])
        else Ok result
      else Ok result
    else Ok result
  else Ok result.

(** Lines 132-204: a consonant pattern matched at [i]. *)
Definition on_consonant (pattern : str) (consonant : option str)
           (i : nat) (result : buffer) : outcome (nat * buffer) :=
  let result := result ++ [consonant] in
  let next_pos := i + length pattern in
  match matra_lookahead matra_patterns next_pos result with
  | Some st => Ok st
  | None =>
      match vowel_lookahead vowel_patterns next_pos i result with
      | Some st => Ok st
      | None =>
          if str_eqb pattern pat_n && (length text <=? next_pos) then
            result <- set_last result (Some anusvara) ;;
            Ok (next_pos, result)
          else
            result <- conjunct_mark next_pos result ;;
            Ok (next_pos, result)
      end
  end.

(** Lines 127-205: [None] when [matched] stays false. *)
Fixpoint consonant_loop (pats : list str) (i : nat) (result : buffer)
  : outcome (option (nat * buffer)) :=
  match pats with
  | [] => Ok None
  | pattern :: pats' =>
      if matches_at i pattern then
        let consonant := dict_get CONSONANTS pattern in
        if truthy consonant then
          st <- on_consonant pattern consonant i result ;;
          Ok (Some st)
        else consonant_loop pats' i result
      else consonant_loop pats' i result
  end.

(** Lines 211-218. *)
Fixpoint vowel_loop (pats : list str) (i : nat) (result : buffer)
  : option (nat * buffer) :=
  match pats with
  | [] => None
  | pattern :: pats' =>
      if matches_at i pattern then
        let vowel := dict_get VOWELS pattern in
        if truthy vowel
        then Some (i + length pattern, result ++ [vowel])
        else vowel_loop pats' i result
      else vowel_loop pats' i result
  end.

(** Lines 224-229. *)
Fixpoint special_loop (pats : list str) (i : nat) (result : buffer)
  : outcome (option (nat * buffer)) :=
  match pats with
  | [] => Ok None
  | pattern :: pats' =>
      if matches_at i pattern then
        v <- dict_index SPECIAL pattern ;;
        Ok (Some (i + length pattern, result ++ [Some v]))
      else special_loop pats' i result
  end.

(** One iteration of the [while] loop, entered with [i < len(text)]. *)
Definition loop_body (i : nat) (result : buffer) : outcome (nat * buffer) :=
  c <- getitem text i ;;
  if (c =? space)%N then Ok (i + 1, result ++ [Some [space]])
  else
    m <- consonant_loop consonant_patterns i result ;;
    match m with
    | Some st => Ok st
    | None =>
        match vowel_loop vowel_patterns i result with
        | Some st => Ok st
        | None =>
            m <- special_loop special_keys i result ;;
            match m with
            | Some st => Ok st
            | None =>
                c <- getitem text i ;;
                Ok (i + 1, result ++ [Some [c]])
            end
        end
    end.

(** [while i < len(text)]: [fuel] bounds the number of iterations. *)
Fixpoint while_loop (fuel : nat) (i : nat) (result : buffer) : outcome buffer :=
  if i <? length text then
    match fuel with
    | O => OutOfFuel
    | S fuel' =>
        st <- loop_body i result ;;
        while_loop fuel' (fst st) (snd st)
    end
  else Ok result.

End Scanner.

(* ================================================================= *)
(** ** The special-case rewriter and [translate] *)

Section Translator.

(** [str.lower] on a string with a non-ASCII character: Unicode's full
    lower-casing, which this development leaves abstract. *)
Variable unicode_lower : str -> str.

(** [s.lower()]: CPython lower-cases a pure ASCII string byte by byte. *)
Definition lower (s : str) : str :=
  if forallb is_ascii s then map ascii_lower s else unicode_lower s.

(** Lines 104-108. *)
Fixpoint words_loop (special replacement : str) (words new_words : list str)
  : list str :=
  match words with
  | [] => new_words
  | word :: words' =>
      if str_eqb (lower word) special
      then words_loop special replacement words' (new_words ++ [replacement])
      else words_loop special replacement words' (new_words ++ [word])
  end.

(** Lines 99-110: the first alias found in [text_lower] rewrites the
    text and ends the loop. *)
Fixpoint special_cases_loop (items : dict) (text text_lower : str) : str :=
  match items with
  | [] => text
  | (special, replacement) :: items' =>
      if contains text_lower special then
        let words := split text in
        let new_words := words_loop special replacement words [] in
        join [space] new_words
      else special_cases_loop items' text text_lower
  end.

(** The text the scanner reads. *)
Definition rewrite (text : str) : str :=
  special_cases_loop special_cases text (lower text).

(** [ITRANSTranslator.translate] *)
Definition translate (text : str) : outcome str :=
  match text with
  | [] => Ok []
  | _ =>
      let text := rewrite text in
      result <- while_loop text (length text) 0 [] ;;
      join_result result
  end.

End Translator.

(* ================================================================= *)
(** ** Notions used to state the properties *)

(** The pattern a search loop stops at: the first one of the index that
    matches. *)
Definition first_match (text : str) (pos : nat) (pats : list str) : option str :=
  find (matches_at text pos) pats.

(** [a] is at least as long as [b]: the order of a sorted index. *)
Definition len_ge (a b : str) : Prop := length b <= length a.

(** The patterns of one length, in the order of the list. *)
Definition of_length (n : nat) (l : list str) : list str :=
  filter (fun p => length p =? n) l.

(** [p] is a strict prefix of [q]. *)
Definition strict_prefix (p q : str) : Prop :=
  startswith q p = true /\ length p < length q.

(** A pattern is not empty and does not begin with a space. *)
Definition proper_pattern (p : str) : bool :=
  match p with
  | [] => false
  | a :: _ => negb (a =? space)%N
  end.

(** No consonant, vowel or special pattern matches at position [i]. *)
Definition uncovered (text : str) (i : nat) : Prop :=
  first_match text i consonant_patterns = None
  /\ first_match text i vowel_patterns = None
  /\ first_match text i special_keys = None.

(** [step text i i' d]: the iteration entered at cursor [i] leaves the
    cursor at [i'] and the buffer longer by the glyph clusters [d]. *)
Inductive step (text : str) (i : nat) : nat -> list str -> Prop :=
| step_space :
    nth_error text i = Some space ->
    step text i (i + 1) [[space]]
| step_matra (p g m gm : str) :
    first_match text i consonant_patterns = Some p ->
    dict_get CONSONANTS p = Some g ->
    first_match text (i + length p) matra_patterns = Some m ->
    dict_get MATRAS m = Some gm ->
    step text i (i + length p + length m) [g; gm]
| step_inherent (p g : str) :
    first_match text i consonant_patterns = Some p ->
    dict_get CONSONANTS p = Some g ->
    first_match text (i + length p) matra_patterns = None ->
    first_match text (i + length p) vowel_patterns = Some pat_a ->
    step text i (i + length p + 1) [g]
| step_vowel_after (p g v gv : str) :
    first_match text i consonant_patterns = Some p ->
    dict_get CONSONANTS p = Some g ->
    first_match text (i + length p) matra_patterns = None ->
    first_match text (i + length p) vowel_patterns = Some v ->
    v <> pat_a ->
    dict_get VOWELS v = Some gv ->
    step text i (i + length p + length v) [g; gv]
| step_final_n :
    first_match text i consonant_patterns = Some pat_n ->
    length text <= i + length pat_n ->
    step text i (i + length pat_n) [anusvara]
| step_conjunct (p g q : str) :
    first_match text i consonant_patterns = Some p ->
    dict_get CONSONANTS p = Some g ->
    first_match text (i + length p) matra_patterns = None ->
    first_match text (i + length p) vowel_patterns = None ->
    first_match text (i + length p) consonant_patterns = Some q ->
    step text i (i + length p) [g; halant]
| step_bare (p g : str) :
    first_match text i consonant_patterns = Some p ->
    dict_get CONSONANTS p = Some g ->
    first_match text (i + length p) matra_patterns = None ->
    first_match text (i + length p) vowel_patterns = None ->
    p <> pat_n \/ i + length p < length text ->
    first_match text (i + length p) consonant_patterns = None ->
    step text i (i + length p) [g]
| step_vowel (v gv : str) :
    first_match text i vowel_patterns = Some v ->
    dict_get VOWELS v = Some gv ->
    step text i (i + length v) [gv]
| step_pass (c : codepoint) :
    nth_error text i = Some c ->
    c <> space ->
    first_match text i consonant_patterns = None ->
    first_match text i vowel_patterns = None ->
    step text i (i + 1) [[c]].

(** The scan from cursor [i] to the end of the text, with the clusters it
    appends. *)
Inductive run (text : str) : nat -> list str -> Prop :=
| run_done (i : nat) :
    length text <= i -> run text i []
| run_step (i i' : nat) (d ds : list str) :
    i < length text -> step text i i' d -> run text i' ds ->
    run text i (d ++ ds).

(** The cluster a consonant iteration leaves first: the anusvara for a
    text-final "n", the glyph of the consonant otherwise. *)
Definition consonant_cluster (text : str) (i : nat) (q gq : str) : str :=
  if str_eqb q pat_n && (length text <=? i + length q) then anusvara else gq.

(** The conjunct property as the specification states it: a consonant
    followed at once by a consonant gives the base glyph, the halant and
    the glyph of the following consonant. *)
Definition conjunct_claim : Prop :=
  forall (text : str) (i : nat) (result : buffer) (p g q gq : str),
    first_match text i consonant_patterns = Some p ->
    dict_get CONSONANTS p = Some g ->
    first_match text (i + length p) matra_patterns = None ->
    first_match text (i + length p) vowel_patterns = None ->
    (exists c, nth_error text (i + length p) = Some c /\ c <> space) ->
    first_match text (i + length p) consonant_patterns = Some q ->
    dict_get CONSONANTS q = Some gq ->
    exists i2 result1 tail,
      loop_body text i result = Ok (i + length p, result1)
      /\ loop_body text (i + length p) result1 =
         Ok (i2, result ++ [Some g; Some halant; Some gq] ++ tail).

(** A code point of the Devanagari block, U+0900 to U+097F. *)
Definition is_devanagari (c : codepoint) : bool :=
  ((2304 <=? c) && (c <=? 2431))%N.

(** [c] stands in [t] at a position where no pattern matches: the
    fallback copies it. *)
Definition passthrough (t : str) (c : codepoint) : Prop :=
  exists i, nth_error t i = Some c /\ uncovered t i.

Definition output_char (t : str) (c : codepoint) : Prop :=
  is_devanagari c = true \/ c = space \/ passthrough t c.

(** A word of [split]: not empty and without white space. *)
Definition is_word (w : str) : Prop :=
  w <> [] /\ forallb (fun c => negb (isspace c)) w = true.

Definition halant_cp : codepoint := 2381%N.

(** Every halant of [out] is followed by a character that is no space. *)
Definition halant_followed (out : str) : Prop :=
  forall pre post, out = pre ++ halant_cp :: post ->
                   exists c post', post = c :: post' /\ c <> space.

(** The same as a check. *)
Fixpoint halant_ok (s : str) : bool :=
  match s with
  | [] => true
  | c :: r =>
      (if (c =? halant_cp)%N
       then match r with
            | [] => false
            | c' :: _ => negb (c' =? space)%N
            end
       else true)
      && halant_ok r
  end.

Section RewriterSpec.

Variable unicode_lower : str -> str.

(** The first alias, in table order, that occurs in the lower-cased
    text. *)
Definition first_alias (text : str) : option (str * str) :=
  find (fun kv => contains (lower unicode_lower text) (fst kv)) special_cases.

(** A word that equals the alias in lower case becomes the expansion. *)
Definition replace_word (alias expansion word : str) : str :=
  if str_eqb (lower unicode_lower word) alias then expansion else word.

(** The rewriter in the words of the specification. *)
Definition rewrite_spec (text : str) : str :=
  match first_alias text with
  | Some (alias, expansion) =>
      join [space] (map (replace_word alias expansion) (split text))
  | None => text
  end.

End RewriterSpec.

(** The rewriter's contract as the specification states it, in the part
    on spacing: the white space of the text reaches the scanner as it
    was. *)
Definition spacing_preserved : Prop :=
  forall (unicode_lower : str -> str) (text : str),
    filter isspace (rewrite unicode_lower text) = filter isspace text.

(* ================================================================= *)
(** ** The scanner as a whole *)

(** Lines 112-236 of [translate]: the scan of a text that the rewriter
    has been through, joined into the returned string. *)
Definition scan (text : str) : outcome str :=
  result <- while_loop text (length text) 0 [] ;;
  join_result result.

(** A string without a space. *)
Definition spaceless (p : str) : bool :=
  forallb (fun c => negb (c =? space)%N) p.

(** No string occurs twice in the list. *)
Fixpoint nodupb (l : list str) : bool :=
  match l with
  | [] => true
  | x :: r => negb (existsb (str_eqb x) r) && nodupb r
  end.

(** The number of ASCII spaces of a string. *)
Definition count_spaces (s : str) : nat := count_occ N.eq_dec s space.

(* ================================================================= *)
(** ** The callers: [interactive_translator.py] and [test_translator.py] *)

(** [s.lstrip()] and [s.strip()]: white space is what [isspace] says. *)
Fixpoint lstrip (s : str) : str :=
  match s with
  | [] => []
  | c :: r => if isspace c then lstrip r else s
  end.

Definition strip (s : str) : str := rev (lstrip (rev (lstrip s))).

(** What the loop of [main] meets at [input()]: a line, or Ctrl+C at the
    prompt; the end of the list is the end of the input. *)
Inductive event : Type :=
| Line (s : str)
| Interrupt.

Definition newline : str := [10%N].

(** [print(s)] appends the text and a line end to the standard output. *)
Definition print (out s : str) : str := out ++ s ++ newline.

Definition prompt : str := Eval vm_compute in U "ITRANS: ".
Definition rule : str := repeat 61%N 60.

(** Lines 19-27 of [interactive_translator.py]. *)
Definition banner : str :=
  let out := print [] rule in
  let out := print out (U "ITRANS to Devanagari Interactive Translator") in
  let out := print out rule in
  let out :=
    print out (U "Type ITRANS text and press Enter to see Devanagari output") in
  let out := print out (U "Type 'quit' or 'exit' to stop") in
  let out := print out rule in
  print out [].

Definition quit_words : list str :=
  Eval vm_compute in [U "quit"; U "exit"; U "q"].

Section Callers.

Variable unicode_lower : str -> str.

(** [user_input.lower() in ['quit', 'exit', 'q']] *)
Definition is_quit (user_input : str) : bool :=
  existsb (str_eqb (lower unicode_lower user_input)) quit_words.

(** Lines 29-48: the [while True] loop over what arrives at [input()];
    [out] is the standard output so far.  An exception of [translate]
    is not caught and ends the program. *)
Fixpoint repl (events : list event) (out : str) : outcome str :=
  match events with
  | [] => Ok (out ++ prompt)
  | Interrupt :: _ => Ok (print (out ++ prompt) (newline ++ U "Goodbye!"))
  | Line s :: events' =>
      let out := out ++ prompt in
      let user_input := strip s in
      if is_quit user_input then Ok (print out (U "Goodbye!"))
      else
        match user_input with
        | [] => repl events' out
        | _ =>
            result <- translate unicode_lower user_input ;;
            let out := print out (U "Devanagari: " ++ result) in
            let out := print out [] in
            repl events' out
        end
  end.

(** [main()] of [interactive_translator.py]. *)
Definition main (events : list event) : outcome str := repl events banner.

(** The table of [test_translator.py]. *)
Definition test_cases : list (str * str) := Eval vm_compute in
  [ entry "namaste" "नमस्ते";
    entry "namaskaar" "नमस्कार";
    entry "bharat" "भारत";
    entry "aaiye" "आइये";
    entry "main" "मैं";
    entry "tum" "तुम";
    entry "ham" "हम";
    entry "raam" "राम";
    entry "shri" "श्री";
    entry "shrii" "श्री";
    entry "devanaagarii" "देवनागरी";
    entry "sanskrit" "संस्कृत";
    entry "hindi" "हिंदी" ].

(** The counting loop of [test_translator()]: the numbers it prints as
    passed and failed. *)
Fixpoint run_tests (cases : list (str * str)) (passed failed : nat)
  : outcome (nat * nat) :=
  match cases with
  | [] => Ok (passed, failed)
  | (input_text, expected) :: cases' =>
      result <- translate unicode_lower input_text ;;
      if str_eqb result expected
      then run_tests cases' (passed + 1) failed
      else run_tests cases' passed (failed + 1)
  end.

Definition test_translator : outcome (nat * nat) := run_tests test_cases 0 0.

End Callers.

(** A character that begins no consonant and no vowel pattern. *)
Definition inert (c : codepoint) : bool :=
  negb (existsb (fun p => match p with
                          | a :: _ => (a =? c)%N
                          | [] => false
                          end)
                (consonant_patterns ++ vowel_patterns)).

(* ================================================================= *)
(** ** Strings: prefixes and slices *)

Lemma str_eqb_eq (a b : str) : str_eqb a b = true <-> a = b.
Proof.
  unfold str_eqb. destruct (list_eq_dec N.eq_dec a b); split; congruence.
Qed.

Lemma str_eqb_neq (a b : str) : str_eqb a b = false <-> a <> b.
Proof.
  unfold str_eqb. destruct (list_eq_dec N.eq_dec a b); split; congruence.
Qed.

Lemma startswith_iff (s p : str) :
  startswith s p = true <-> exists t, s = p ++ t.
Proof.
  revert s. induction p as [|a p IH]; intros s; simpl.
  - split; [intros _; now exists s | reflexivity].
  - destruct s as [|b s].
    + split; [discriminate | intros [t Ht]; discriminate].
    + rewrite andb_true_iff, N.eqb_eq, IH. split.
      * intros [-> [t ->]]. now exists t.
      * intros [t Ht]. injection Ht as -> ->. split; [reflexivity | now exists t].
Qed.

Lemma startswith_length (s p : str) :
  startswith s p = true -> length p <= length s.
Proof.
  rewrite startswith_iff. intros [t ->]. rewrite length_app. lia.
Qed.

Lemma startswith_head (s p : str) (a : codepoint) (p' : str) :
  startswith s p = true -> p = a :: p' -> hd_error s = Some a.
Proof.
  intros H ->. destruct s as [|b s]; simpl in H; [discriminate|].
  apply andb_true_iff in H as [H _]. apply N.eqb_eq in H. now subst.
Qed.

Lemma nth_error_slice (text : str) (i : nat) :
  nth_error text i = hd_error (slice_from text i).
Proof.
  unfold slice_from. revert i. induction text as [|c text IH]; intros [|i]; simpl; auto.
Qed.

Lemma slice_length (text : str) (i : nat) :
  length (slice_from text i) = length text - i.
Proof. unfold slice_from. apply length_skipn. Qed.

Lemma slice_slice (text : str) (i n : nat) :
  slice_from (slice_from text i) n = slice_from text (i + n).
Proof. unfold slice_from. rewrite skipn_skipn. f_equal. lia. Qed.

Lemma matches_at_bound (text : str) (i : nat) (p : str) :
  matches_at text i p = true -> i + length p <= length text \/ p = [].
Proof.
  unfold matches_at. intros H. apply startswith_length in H.
  rewrite slice_length in H. destruct p as [|a p]; [now right | left].
  simpl in *. lia.
Qed.

Lemma matches_at_head (text : str) (i : nat) (a : codepoint) (p : str) :
  matches_at text i (a :: p) = true -> nth_error text i = Some a.
Proof.
  unfold matches_at. intros H. rewrite nth_error_slice.
  eapply startswith_head; eauto.
Qed.

(** A prefix of a matching pattern matches too. *)
Lemma matches_at_prefix (text : str) (i : nat) (p q : str) :
  startswith q p = true -> matches_at text i q = true -> matches_at text i p = true.
Proof.
  unfold matches_at. rewrite !startswith_iff.
  intros [t ->] [u ->]. exists (t ++ u). now rewrite app_assoc.
Qed.

Lemma first_match_some (text : str) (pos : nat) (pats : list str) (p : str) :
  first_match text pos pats = Some p ->
  In p pats /\ matches_at text pos p = true.
Proof. apply find_some. Qed.

Lemma first_match_none (text : str) (pos : nat) (pats : list str) :
  first_match text pos pats = None <->
  existsb (matches_at text pos) pats = false.
Proof.
  unfold first_match. induction pats as [|p pats IH]; simpl; [tauto|].
  destruct (matches_at text pos p); simpl; [split; discriminate | exact IH].
Qed.

Lemma first_match_none_in (text : str) (pos : nat) (pats : list str) (p : str) :
  first_match text pos pats = None -> In p pats -> matches_at text pos p = false.
Proof. intros H Hin. exact (find_none _ _ H _ Hin). Qed.

(** In an index sorted by descending length the first match is a longest
    match. *)
Lemma first_match_longest (text : str) (pos : nat) (pats : list str) :
  StronglySorted len_ge pats ->
  forall p q, first_match text pos pats = Some p ->
              In q pats -> matches_at text pos q = true ->
              length q <= length p.
Proof.
  unfold first_match. induction 1 as [|a l Hs IH Ha]; intros p q Hp Hq Hm; [easy|].
  simpl in Hp. destruct (matches_at text pos a) eqn:Ea.
  - injection Hp as <-. destruct Hq as [<- | Hq]; [lia|].
    rewrite Forall_forall in Ha. exact (Ha _ Hq).
  - destruct Hq as [<- | Hq]; [congruence|]. eauto.
Qed.

(* ================================================================= *)
(** ** Facts about the tables, checked by evaluation *)

Lemma forallb_In {A : Type} (f : A -> bool) (l : list A) :
  forallb f l = true -> forall x, In x l -> f x = true.
Proof. intros H x Hx. rewrite forallb_forall in H. auto. Qed.

Lemma truthy_some (v : option str) :
  truthy v = true -> exists g, v = Some g /\ g <> [].
Proof.
  destruct v as [[|c g]|]; simpl; try discriminate.
  intros _. exists (c :: g). split; [reflexivity | discriminate].
Qed.

Lemma consonant_truthy (p : str) :
  In p consonant_patterns -> truthy (dict_get CONSONANTS p) = true.
Proof.
  apply (forallb_In (fun p => truthy (dict_get CONSONANTS p))). reflexivity.
Qed.

Lemma vowel_truthy (p : str) :
  In p vowel_patterns -> truthy (dict_get VOWELS p) = true.
Proof.
  apply (forallb_In (fun p => truthy (dict_get VOWELS p))). reflexivity.
Qed.

Lemma matra_truthy (p : str) :
  In p matra_patterns -> truthy (dict_get MATRAS p) = true.
Proof.
  apply (forallb_In (fun p => truthy (dict_get MATRAS p))). reflexivity.
Qed.

(** The implicit vowel "a" is no key of [MATRAS]: the branch of line 142
    is never taken. *)
Lemma matra_not_a (p : str) : In p matra_patterns -> str_eqb p pat_a = false.
Proof.
  intros Hin.
  assert (H : negb (str_eqb p pat_a) = true).
  { revert p Hin. apply forallb_In. reflexivity. }
  now destruct (str_eqb p pat_a).
Qed.

(** Every key of [SPECIAL] is a key of [VOWELS] too. *)
Lemma special_in_vowels (p : str) : In p special_keys -> In p vowel_patterns.
Proof.
  intros H.
  assert (E : existsb (str_eqb p) vowel_patterns = true).
  { revert p H.
    apply (forallb_In (fun p => existsb (str_eqb p) vowel_patterns)).
    reflexivity. }
  apply existsb_exists in E as [q [Hq E]]. apply str_eqb_eq in E. now subst.
Qed.

Lemma consonant_proper (p : str) :
  In p consonant_patterns -> proper_pattern p = true.
Proof. apply forallb_In. reflexivity. Qed.

Lemma vowel_proper (p : str) :
  In p vowel_patterns -> proper_pattern p = true.
Proof. apply forallb_In. reflexivity. Qed.

Lemma matra_proper (p : str) :
  In p matra_patterns -> proper_pattern p = true.
Proof. apply forallb_In. reflexivity. Qed.

Lemma proper_pattern_length (p : str) : proper_pattern p = true -> 1 <= length p.
Proof. destruct p; simpl; [discriminate | lia]. Qed.

Lemma proper_match_bound (text : str) (i : nat) (p : str) :
  proper_pattern p = true -> matches_at text i p = true ->
  i < i + length p <= length text.
Proof.
  intros Hp Hm. pose proof (proper_pattern_length _ Hp).
  destruct (matches_at_bound _ _ _ Hm) as [H1 | ->]; [lia | discriminate].
Qed.

Lemma proper_match_head (text : str) (i : nat) (p : str) :
  proper_pattern p = true -> matches_at text i p = true ->
  exists c, nth_error text i = Some c /\ c <> space.
Proof.
  destruct p as [|a p]; simpl; [discriminate|]. intros Ha Hm.
  exists a. split; [eapply matches_at_head; eauto|].
  intros ->. now rewrite N.eqb_refl in Ha.
Qed.

(** No consonant pattern begins like a vowel pattern. *)
Lemma consonant_vowel_heads (p q : str) :
  In p consonant_patterns -> In q vowel_patterns -> hd_error p <> hd_error q.
Proof.
  intros Hp Hq.
  assert (E : forallb (fun q => negb (match hd_error p, hd_error q with
                                      | Some a, Some b => (a =? b)%N
                                      | _, _ => true
                                      end)) vowel_patterns = true).
  { revert p Hp. apply forallb_In. reflexivity. }
  pose proof (forallb_In _ _ E _ Hq) as H. cbv beta in H.
  unfold str, codepoint in *.
  destruct (hd_error p) as [a|], (hd_error q) as [b|]; try discriminate.
  intros [= ->]. rewrite N.eqb_refl in H. discriminate.
Qed.

(** A position where a vowel pattern matches is no start of a consonant. *)
Lemma vowel_excludes_consonant (text : str) (i : nat) (q : str) :
  In q vowel_patterns -> matches_at text i q = true ->
  first_match text i consonant_patterns = None.
Proof.
  intros Hq Hm.
  destruct (first_match text i consonant_patterns) as [p|] eqn:E; [|reflexivity].
  apply first_match_some in E as [Hp Hpm]. exfalso.
  apply (consonant_vowel_heads p q Hp Hq).
  pose proof (consonant_proper _ Hp) as Pp. pose proof (vowel_proper _ Hq) as Pq.
  destruct p as [|a p]; [discriminate|]. destruct q as [|b q]; [discriminate|].
  apply matches_at_head in Hm, Hpm. simpl. congruence.
Qed.

(* ================================================================= *)
(** ** The search loops in terms of the first match *)

Section Loops.

Variable text : str.

Lemma matra_lookahead_spec (next_pos : nat) (result : buffer) :
  matra_lookahead text matra_patterns next_pos result =
  match first_match text next_pos matra_patterns with
  | Some m => Some (next_pos + length m, result ++ [dict_get MATRAS m])
  | None => None
  end.
Proof.
  unfold first_match. pose proof matra_not_a as Ha.
  induction matra_patterns as [|m pats IH];
    cbn [matra_lookahead find]; [reflexivity|].
  destruct (matches_at text next_pos m).
  - now rewrite Ha by now left.
  - apply IH. intros p Hp. apply Ha. now right.
Qed.

Lemma vowel_lookahead_spec (next_pos i : nat) (result : buffer) :
  vowel_lookahead text vowel_patterns next_pos i result =
  match first_match text next_pos vowel_patterns with
  | Some v =>
      if str_eqb v pat_a then Some (next_pos + 1, result)
      else Some (next_pos + length v, result ++ [dict_get VOWELS v])
  | None => None
  end.
Proof.
  unfold first_match. pose proof vowel_truthy as Ht.
  induction vowel_patterns as [|v pats IH];
    cbn [vowel_lookahead find]; [reflexivity|].
  destruct (matches_at text next_pos v).
  - destruct (str_eqb v pat_a); [reflexivity|].
    cbv zeta. now rewrite Ht by now left.
  - apply IH. intros p Hp. apply Ht. now right.
Qed.

Lemma consonant_loop_spec (i : nat) (result : buffer) :
  consonant_loop text consonant_patterns i result =
  match first_match text i consonant_patterns with
  | Some p =>
      st <- on_consonant text p (dict_get CONSONANTS p) i result ;;
      Ok (Some st)
  | None => Ok None
  end.
Proof.
  unfold first_match. pose proof consonant_truthy as Ht.
  induction consonant_patterns as [|p pats IH];
    cbn [consonant_loop find]; [reflexivity|].
  destruct (matches_at text i p).
  - now rewrite Ht by now left.
  - apply IH. intros q Hq. apply Ht. now right.
Qed.

Lemma vowel_loop_spec (i : nat) (result : buffer) :
  vowel_loop text vowel_patterns i result =
  match first_match text i vowel_patterns with
  | Some v => Some (i + length v, result ++ [dict_get VOWELS v])
  | None => None
  end.
Proof.
  unfold first_match. pose proof vowel_truthy as Ht.
  induction vowel_patterns as [|v pats IH];
    cbn [vowel_loop find]; [reflexivity|].
  destruct (matches_at text i v).
  - now rewrite Ht by now left.
  - apply IH. intros q Hq. apply Ht. now right.
Qed.

Lemma special_loop_none (pats : list str) (i : nat) (result : buffer) :
  existsb (matches_at text i) pats = false ->
  special_loop text pats i result = Ok None.
Proof.
  induction pats as [|p pats IH]; simpl; [reflexivity|].
  intros H. apply orb_false_iff in H as [-> H]. auto.
Qed.

(** Where no vowel pattern matches, no special pattern does. *)
Lemma no_vowel_no_special (pos : nat) :
  first_match text pos vowel_patterns = None ->
  existsb (matches_at text pos) special_keys = false.
Proof.
  intros H. destruct (existsb _ special_keys) eqn:E; [|reflexivity].
  apply existsb_exists in E as [p [Hp Hm]].
  apply special_in_vowels in Hp.
  rewrite (first_match_none_in _ _ _ _ H Hp) in Hm. discriminate.
Qed.

(** The special loop of lines 224-229 is reached only where it finds
    nothing. *)
Lemma special_loop_unreached (i : nat) (result : buffer) :
  first_match text i vowel_patterns = None ->
  special_loop text special_keys i result = Ok None.
Proof. intros H. apply special_loop_none, no_vowel_no_special, H. Qed.

Lemma set_last_snoc (result : buffer) (x v : option str) :
  set_last (result ++ [x]) v = Ok (result ++ [v]).
Proof.
  unfold set_last. rewrite removelast_last.
  destruct result; reflexivity.
Qed.

Lemma first_match_end (pats : list str) :
  forallb proper_pattern pats = true ->
  forall pos, length text <= pos -> first_match text pos pats = None.
Proof.
  intros Hp pos Hlen.
  destruct (first_match text pos pats) as [p|] eqn:E; [|reflexivity].
  apply first_match_some in E as [Hin Hm].
  pose proof (proper_match_bound text pos p (forallb_In _ _ Hp _ Hin) Hm). lia.
Qed.

End Loops.

(* ================================================================= *)
(** ** The branches of one iteration *)

Section Branches.

Variable text : str.

Local Abbreviation sel := (first_match text).

Lemma consonant_excludes_vowel (pos : nat) (q : str) :
  sel pos consonant_patterns = Some q -> sel pos vowel_patterns = None.
Proof.
  intros Hq. destruct (sel pos vowel_patterns) as [v|] eqn:E; [|reflexivity].
  apply first_match_some in E as [Hv Hm].
  rewrite (vowel_excludes_consonant text pos v Hv Hm) in Hq. discriminate.
Qed.

(** Lines 177-200 add the halant exactly where a consonant pattern
    matches at [next_pos]. *)
Lemma conjunct_mark_spec (next_pos : nat) (result : buffer) :
  conjunct_mark text next_pos result =
  Ok (match sel next_pos consonant_patterns with
      | Some _ => result ++ [Some halant]
      | None => result
      end).
Proof.
  unfold conjunct_mark. destruct (next_pos <? length text) eqn:El.
  - apply Nat.ltb_lt in El. unfold getitem.
    destruct (nth_error text next_pos) as [c|] eqn:Ec;
      [|apply nth_error_None in Ec; lia].
    cbn [bind]. destruct (sel next_pos consonant_patterns) as [q|] eqn:Eq.
    + pose proof (consonant_excludes_vowel _ _ Eq) as Ev.
      apply first_match_some in Eq as [Hq Hm].
      destruct (proper_match_head text next_pos q (consonant_proper q Hq) Hm)
        as [c' [Hc' Hsp]].
      assert (c' = c) by congruence. subst c'.
      apply N.eqb_neq in Hsp. rewrite Hsp. cbn [negb].
      assert (Ex : existsb (matches_at text next_pos) consonant_patterns = true)
        by (apply existsb_exists; eauto).
      rewrite Ex, (no_vowel_no_special text next_pos Ev).
      apply first_match_none in Ev. now rewrite Ev.
    + apply first_match_none in Eq. rewrite Eq.
      now destruct (negb (c =? space)%N).
  - apply Nat.ltb_ge in El.
    now rewrite (first_match_end text consonant_patterns eq_refl next_pos El).
Qed.

Lemma on_consonant_matra (p : str) (g : option str) (i : nat) (result : buffer)
      (m : str) :
  sel (i + length p) matra_patterns = Some m ->
  on_consonant text p g i result =
  Ok (i + length p + length m, result ++ [g; dict_get MATRAS m]).
Proof.
  intros Hm. unfold on_consonant. cbv zeta.
  rewrite matra_lookahead_spec, Hm, <- app_assoc. reflexivity.
Qed.

Lemma on_consonant_vowel (p : str) (g : option str) (i : nat) (result : buffer)
      (v : str) :
  sel (i + length p) matra_patterns = None ->
  sel (i + length p) vowel_patterns = Some v ->
  on_consonant text p g i result =
  if str_eqb v pat_a then Ok (i + length p + 1, result ++ [g])
  else Ok (i + length p + length v, result ++ [g; dict_get VOWELS v]).
Proof.
  intros Hm Hv. unfold on_consonant. cbv zeta.
  rewrite matra_lookahead_spec, Hm, vowel_lookahead_spec, Hv.
  destruct (str_eqb v pat_a); [reflexivity|]. now rewrite <- app_assoc.
Qed.

Lemma on_consonant_final_n (g : option str) (i : nat) (result : buffer) :
  length text <= i + length pat_n ->
  on_consonant text pat_n g i result =
  Ok (i + length pat_n, result ++ [Some anusvara]).
Proof.
  intros Hend. unfold on_consonant. cbv zeta.
  rewrite matra_lookahead_spec, vowel_lookahead_spec.
  rewrite (first_match_end text matra_patterns eq_refl _ Hend).
  rewrite (first_match_end text vowel_patterns eq_refl _ Hend).
  apply Nat.leb_le in Hend. rewrite Hend.
  replace (str_eqb pat_n pat_n) with true by reflexivity.
  cbn [andb]. rewrite set_last_snoc. reflexivity.
Qed.

Lemma on_consonant_plain (p : str) (g : option str) (i : nat) (result : buffer) :
  sel (i + length p) matra_patterns = None ->
  sel (i + length p) vowel_patterns = None ->
  p <> pat_n \/ i + length p < length text ->
  on_consonant text p g i result =
  Ok (i + length p,
      match sel (i + length p) consonant_patterns with
      | Some _ => result ++ [g; Some halant]
      | None => result ++ [g]
      end).
Proof.
  intros Hm Hv Hn. unfold on_consonant. cbv zeta.
  rewrite matra_lookahead_spec, Hm, vowel_lookahead_spec, Hv.
  assert (E : str_eqb p pat_n && (length text <=? i + length p) = false).
  { destruct Hn as [Hn | Hn].
    - apply str_eqb_neq in Hn. now rewrite Hn.
    - apply Nat.leb_gt in Hn. rewrite Hn. apply andb_false_r. }
  rewrite E, conjunct_mark_spec. cbn [bind].
  destruct (sel (i + length p) consonant_patterns);
    [now rewrite <- app_assoc | reflexivity].
Qed.

Lemma loop_body_space (i : nat) (result : buffer) :
  nth_error text i = Some space ->
  loop_body text i result = Ok (i + 1, result ++ [Some [space]]).
Proof. intros H. unfold loop_body, getitem. rewrite H. reflexivity. Qed.

Lemma loop_body_consonant (i : nat) (result : buffer) (p : str) :
  sel i consonant_patterns = Some p ->
  loop_body text i result =
  on_consonant text p (dict_get CONSONANTS p) i result.
Proof.
  intros Hp. pose proof Hp as Hp'. apply first_match_some in Hp' as [Hin Hm].
  destruct (proper_match_head text i p (consonant_proper p Hin) Hm)
    as [c [Hc Hsp]].
  unfold loop_body, getitem. rewrite Hc. cbn [bind].
  apply N.eqb_neq in Hsp. rewrite Hsp, consonant_loop_spec, Hp.
  now destruct (on_consonant text p (dict_get CONSONANTS p) i result).
Qed.

Lemma loop_body_vowel (i : nat) (result : buffer) (v : str) :
  sel i vowel_patterns = Some v ->
  loop_body text i result = Ok (i + length v, result ++ [dict_get VOWELS v]).
Proof.
  intros Hv. pose proof Hv as Hv'. apply first_match_some in Hv' as [Hin Hm].
  destruct (proper_match_head text i v (vowel_proper v Hin) Hm)
    as [c [Hc Hsp]].
  unfold loop_body, getitem. rewrite Hc. cbn [bind].
  apply N.eqb_neq in Hsp. rewrite Hsp, consonant_loop_spec.
  rewrite (vowel_excludes_consonant text i v Hin Hm). cbn [bind].
  now rewrite vowel_loop_spec, Hv.
Qed.

Lemma loop_body_pass (i : nat) (result : buffer) (c : codepoint) :
  nth_error text i = Some c -> c <> space ->
  sel i consonant_patterns = None ->
  sel i vowel_patterns = None ->
  loop_body text i result = Ok (i + 1, result ++ [Some [c]]).
Proof.
  intros Hc Hsp Hk Hv. unfold loop_body, getitem. rewrite Hc. cbn [bind].
  apply N.eqb_neq in Hsp. rewrite Hsp, consonant_loop_spec, Hk. cbn [bind].
  rewrite vowel_loop_spec, Hv, (special_loop_unreached text i result Hv).
  reflexivity.
Qed.

End Branches.

(* ================================================================= *)
(** ** One iteration as a step relation *)

Section StepCorrect.

Variable text : str.

Lemma get_of_truthy (d : dict) (p : str) :
  truthy (dict_get d p) = true -> exists g, dict_get d p = Some g.
Proof. intros H. apply truthy_some in H as [g [H _]]. eauto. Qed.

(** Every iteration of the loop is a step. *)
Lemma loop_body_step (i : nat) (result : buffer) :
  i < length text ->
  exists i' d,
    loop_body text i result = Ok (i', result ++ map Some d)
    /\ step text i i' d.
Proof.
  intros Hi.
  destruct (nth_error text i) as [c|] eqn:Ec;
    [|apply nth_error_None in Ec; lia].
  destruct (N.eq_dec c space) as [-> | Hsp].
  { exists (i + 1), [[space]]. split;
      [now apply loop_body_space | now constructor]. }
  destruct (first_match text i consonant_patterns) as [p|] eqn:Ep.
  - rewrite (loop_body_consonant text i result p Ep).
    pose proof Ep as Ep'. apply first_match_some in Ep' as [Hin Hpm].
    destruct (get_of_truthy CONSONANTS p (consonant_truthy p Hin)) as [g Hg].
    rewrite Hg.
    destruct (first_match text (i + length p) matra_patterns) as [m|] eqn:Em.
    { pose proof Em as Em'. apply first_match_some in Em' as [Hmin _].
      destruct (get_of_truthy MATRAS m (matra_truthy m Hmin)) as [gm Hgm].
      exists (i + length p + length m), [g; gm]. split.
      - rewrite (on_consonant_matra text p (Some g) i result m Em), Hgm.
        reflexivity.
      - eapply step_matra; eassumption. }
    destruct (first_match text (i + length p) vowel_patterns) as [v|] eqn:Ev.
    { rewrite (on_consonant_vowel text p (Some g) i result v Em Ev).
      pose proof Ev as Ev'. apply first_match_some in Ev' as [Hvin _].
      destruct (get_of_truthy VOWELS v (vowel_truthy v Hvin)) as [gv Hgv].
      destruct (str_eqb v pat_a) eqn:Ea.
      - apply str_eqb_eq in Ea. subst v.
        exists (i + length p + 1), [g]. split; [reflexivity|].
        now apply step_inherent.
      - apply str_eqb_neq in Ea.
        exists (i + length p + length v), [g; gv]. rewrite Hgv. split;
          [reflexivity | eapply step_vowel_after; eassumption]. }
    destruct (list_eq_dec N.eq_dec p pat_n) as [-> | Hn].
    + destruct (le_lt_dec (length text) (i + length pat_n)) as [Hend | Hmid].
      * exists (i + length pat_n), [anusvara]. split;
          [now apply on_consonant_final_n | now apply step_final_n].
      * rewrite (on_consonant_plain text pat_n (Some g) i result Em Ev
                   (or_intror Hmid)).
        destruct (first_match text (i + length pat_n) consonant_patterns)
          as [q|] eqn:Eq.
        -- exists (i + length pat_n), [g; halant]. split;
             [reflexivity | eapply step_conjunct; eassumption].
        -- exists (i + length pat_n), [g]. split; [reflexivity|].
           apply step_bare; try assumption. right. exact Hmid.
    + rewrite (on_consonant_plain text p (Some g) i result Em Ev
                 (or_introl Hn)).
      destruct (first_match text (i + length p) consonant_patterns)
        as [q|] eqn:Eq.
      * exists (i + length p), [g; halant]. split;
          [reflexivity | eapply step_conjunct; eassumption].
      * exists (i + length p), [g]. split; [reflexivity|].
        apply step_bare; try assumption. left. exact Hn.
  - destruct (first_match text i vowel_patterns) as [v|] eqn:Ev.
    + pose proof Ev as Ev'. apply first_match_some in Ev' as [Hvin _].
      destruct (get_of_truthy VOWELS v (vowel_truthy v Hvin)) as [gv Hgv].
      exists (i + length v), [gv]. split.
      * rewrite (loop_body_vowel text i result v Ev), Hgv. reflexivity.
      * eapply step_vowel; eassumption.
    + exists (i + 1), [[c]]. split;
        [now apply loop_body_pass | now apply step_pass].
Qed.

(** A step moves the cursor forward, and not beyond the end. *)
Lemma step_progress (i i' : nat) (d : list str) :
  step text i i' d -> i < i' <= length text.
Proof.
  assert (K : forall pos p, first_match text pos consonant_patterns = Some p ->
                            pos < pos + length p <= length text).
  { intros pos p H. apply first_match_some in H as [Hin Hm].
    apply proper_match_bound; [now apply consonant_proper | exact Hm]. }
  assert (V : forall pos p, first_match text pos vowel_patterns = Some p ->
                            pos < pos + length p <= length text).
  { intros pos p H. apply first_match_some in H as [Hin Hm].
    apply proper_match_bound; [now apply vowel_proper | exact Hm]. }
  assert (M : forall pos p, first_match text pos matra_patterns = Some p ->
                            pos < pos + length p <= length text).
  { intros pos p H. apply first_match_some in H as [Hin Hm].
    apply proper_match_bound; [now apply matra_proper | exact Hm]. }
  assert (I : forall pos c, nth_error text pos = Some c -> pos < length text).
  { intros pos c H. apply nth_error_Some. congruence. }
  destruct 1;
    repeat match goal with
      | H : first_match text _ consonant_patterns = Some _ |- _ =>
          apply K in H
      | H : first_match text _ vowel_patterns = Some _ |- _ => apply V in H
      | H : first_match text _ matra_patterns = Some _ |- _ => apply M in H
      | H : nth_error text _ = Some _ |- _ => apply I in H
      end; change (length pat_a) with 1 in *; lia.
Qed.

(** With enough iterations allowed, the loop runs to the end of the
    text, and its iterations are the steps of a [run]. *)
Lemma while_loop_run (fuel i : nat) (result : buffer) :
  length text - i <= fuel ->
  exists ds,
    while_loop text fuel i result = Ok (result ++ map Some ds)
    /\ run text i ds.
Proof.
  revert i result. induction fuel as [|fuel IH]; intros i result Hf.
  - exists []. cbn [while_loop]. 
    assert (E : (i <? length text) = false) by (apply Nat.ltb_ge; lia).
    rewrite E, app_nil_r. split; [reflexivity | constructor; lia].
  - cbn [while_loop]. destruct (i <? length text) eqn:E.
    + apply Nat.ltb_lt in E.
      destruct (loop_body_step i result E) as [i' [d [Hb Hs]]].
      pose proof (step_progress i i' d Hs) as Hp.
      rewrite Hb. cbn [bind fst snd].
      destruct (IH i' (result ++ map Some d)) as [ds [Hw Hr]]; [lia|].
      exists (d ++ ds). rewrite Hw, map_app, app_assoc. split;
        [reflexivity | econstructor; eauto].
    + apply Nat.ltb_ge in E. exists []. rewrite app_nil_r. split;
        [reflexivity | now constructor].
Qed.

Lemma join_result_clusters (ds : list str) :
  join_result (map Some ds) = Ok (concat ds).
Proof.
  induction ds as [|d ds IH]; [reflexivity|].
  cbn [map join_result concat]. now rewrite IH.
Qed.

End StepCorrect.

(* ================================================================= *)
(** ** Running the loop *)

Section Running.

Variable text : str.

(** More iterations allowed do not change a result. *)
Lemma while_loop_fuel_mono (fuel fuel' i : nat) (result out : buffer) :
  while_loop text fuel i result = Ok out -> fuel <= fuel' ->
  while_loop text fuel' i result = Ok out.
Proof.
  revert fuel' i result. induction fuel as [|fuel IH]; intros fuel' i result.
  - cbn [while_loop]. destruct (i <? length text) eqn:E; [discriminate|].
    intros H _. destruct fuel'; cbn [while_loop]; now rewrite E.
  - cbn [while_loop]. destruct (i <? length text) eqn:E.
    + intros H Hle. destruct fuel' as [|fuel']; [lia|].
      cbn [while_loop]. rewrite E.
      destruct (loop_body text i result) as [[i' r']| |];
        cbn [bind fst snd] in *; try discriminate.
      apply IH; [exact H | lia].
    + intros H _. destruct fuel'; cbn [while_loop]; now rewrite E.
Qed.

Lemma while_loop_unfold (fuel i : nat) (result : buffer) :
  i < length text ->
  while_loop text (S fuel) i result =
  (st <- loop_body text i result ;; while_loop text fuel (fst st) (snd st)).
Proof.
  intros Hi. apply Nat.ltb_lt in Hi. cbn [while_loop]. now rewrite Hi.
Qed.

Lemma while_loop_at_end (fuel i : nat) (result : buffer) :
  length text <= i -> while_loop text fuel i result = Ok result.
Proof.
  intros Hi. apply Nat.ltb_ge in Hi.
  destruct fuel; cbn [while_loop]; now rewrite Hi.
Qed.

End Running.

Section TranslateRuns.

Variable unicode_lower : str -> str.

(** [translate] returns the concatenated clusters of a run over the
    rewritten text. *)
Lemma translate_run (text : str) :
  exists ds,
    translate unicode_lower text = Ok (concat ds)
    /\ run (rewrite unicode_lower text) 0 ds.
Proof.
  destruct text as [|c text].
  - exists []. split; [reflexivity | constructor].
    unfold rewrite, lower. cbn. lia.
  - unfold translate.
    destruct (while_loop_run (rewrite unicode_lower (c :: text))
                (length (rewrite unicode_lower (c :: text))) 0 [])
      as [ds [Hw Hr]]; [lia|].
    exists ds. rewrite Hw. cbn [bind app].
    split; [apply join_result_clusters | exact Hr].
Qed.

End TranslateRuns.

(* ================================================================= *)
(** ** The pattern index builder *)

Lemma insert_by_len_perm (x : str) (l : list str) :
  Permutation (x :: l) (insert_by_len x l).
Proof.
  induction l as [|y l IH]; cbn [insert_by_len]; [reflexivity|].
  destruct (length x <? length y); [|reflexivity].
  rewrite perm_swap. now apply perm_skip.
Qed.

Lemma sorted_by_len_desc_perm (l : list str) :
  Permutation l (sorted_by_len_desc l).
Proof.
  induction l as [|x l IH]; cbn [sorted_by_len_desc]; [reflexivity|].
  rewrite <- insert_by_len_perm. now apply perm_skip.
Qed.

Lemma insert_by_len_sorted (x : str) (l : list str) :
  StronglySorted len_ge l -> StronglySorted len_ge (insert_by_len x l).
Proof.
  induction 1 as [|y l Hs IH Hy]; cbn [insert_by_len].
  - repeat constructor.
  - destruct (length x <? length y) eqn:E.
    + apply Nat.ltb_lt in E. constructor; [exact IH|].
      rewrite <- insert_by_len_perm. constructor; [unfold len_ge; lia | exact Hy].
    + apply Nat.ltb_ge in E. constructor; [now constructor|].
      constructor; [exact E|].
      rewrite Forall_forall in *. intros z Hz. specialize (Hy z Hz).
      unfold len_ge in *. lia.
Qed.

Lemma sorted_by_len_desc_sorted (l : list str) :
  StronglySorted len_ge (sorted_by_len_desc l).
Proof.
  induction l as [|x l IH]; cbn [sorted_by_len_desc];
    [constructor | now apply insert_by_len_sorted].
Qed.

Lemma insert_by_len_stable (n : nat) (x : str) (l : list str) :
  of_length n (insert_by_len x l) = of_length n (x :: l).
Proof.
  unfold of_length. induction l as [|y l IH]; cbn [insert_by_len]; [reflexivity|].
  destruct (length x <? length y) eqn:E; [|reflexivity].
  apply Nat.ltb_lt in E. cbn [filter] in *. rewrite IH.
  destruct (length x =? n) eqn:Ex, (length y =? n) eqn:Ey; try reflexivity.
  apply Nat.eqb_eq in Ex, Ey. lia.
Qed.

(** Stability: patterns of equal length keep their declaration order. *)
Lemma sorted_by_len_desc_stable (n : nat) (l : list str) :
  of_length n (sorted_by_len_desc l) = of_length n l.
Proof.
  induction l as [|x l IH]; cbn [sorted_by_len_desc]; [reflexivity|].
  rewrite insert_by_len_stable. unfold of_length in *. cbn [filter].
  now rewrite IH.
Qed.

Lemma vowel_patterns_eq : vowel_patterns = sorted_by_len_desc (keys VOWELS).
Proof. reflexivity. Qed.

Lemma consonant_patterns_eq :
  consonant_patterns = sorted_by_len_desc (keys CONSONANTS).
Proof. reflexivity. Qed.

Lemma matra_patterns_eq : matra_patterns = sorted_by_len_desc (keys MATRAS).
Proof. reflexivity. Qed.

Lemma special_keys_eq : special_keys = keys SPECIAL.
Proof. reflexivity. Qed.

(** The three indexes that [__init__] sorts are the keys of their
    category by descending length, ties in declaration order. *)
Lemma sorted_indexes :
  forall d index,
    (d, index) = (VOWELS, vowel_patterns)
    \/ (d, index) = (CONSONANTS, consonant_patterns)
    \/ (d, index) = (MATRAS, matra_patterns) ->
    Permutation (keys d) index
    /\ StronglySorted len_ge index
    /\ forall n, of_length n index = of_length n (keys d).
Proof.
  intros d index H.
  assert (E : index = sorted_by_len_desc (keys d)).
  { destruct H as [H | [H | H]]; injection H as -> ->; reflexivity. }
  rewrite E. split; [apply sorted_by_len_desc_perm|].
  split; [apply sorted_by_len_desc_sorted|].
  intros n. apply sorted_by_len_desc_stable.
Qed.

Lemma index_in (d : dict) (index : list str) (q : str) :
  index = sorted_by_len_desc (keys d) -> In q (keys d) -> In q index.
Proof.
  intros -> H. eapply Permutation_in; [apply sorted_by_len_desc_perm | exact H].
Qed.

(** A matching key of a sorted index makes the search stop at a pattern
    that is at least as long. *)
Lemma first_match_covers (text : str) (pos : nat) (d : dict) (index : list str)
      (q : str) :
  index = sorted_by_len_desc (keys d) ->
  In q (keys d) -> matches_at text pos q = true ->
  exists r, first_match text pos index = Some r
            /\ In r index /\ matches_at text pos r = true
            /\ length q <= length r.
Proof.
  intros E Hq Hm. pose proof (index_in d index q E Hq) as Hin.
  destruct (first_match text pos index) as [r|] eqn:Er.
  - exists r. pose proof Er as Er'. apply first_match_some in Er' as [Hr Hrm].
    repeat split; try assumption.
    eapply first_match_longest; eauto.
    rewrite E. apply sorted_by_len_desc_sorted.
  - rewrite (first_match_none_in text pos index q Er Hin) in Hm. discriminate.
Qed.

(* ================================================================= *)
(** ** Golden cases *)

(** The UTF-8 decoding of the expected outputs, as code points. *)
Lemma golden_code_points :
  U "नमस्ते" = [2344; 2350; 2360; 2381; 2340; 2375]%N
  /\ U "नमस्कार" = [2344; 2350; 2360; 2381; 2325; 2366; 2352]%N
  /\ U "संस्कृत" = [2360; 2306; 2360; 2381; 2325; 2371; 2340]%N
  /\ U "श्री" = [2358; 2381; 2352; 2368]%N
  /\ U "हिंदी" = [2361; 2367; 2306; 2342; 2368]%N
  /\ U "राम" = [2352; 2366; 2350]%N
  /\ U "भारत" = [2349; 2366; 2352; 2340]%N.
Proof. repeat split. Qed.

(** C1: [translate] returns the fixed outputs of the specification on its
    enumerated inputs: the empty string, "namaste", "namaskaar",
    "sanskrit", "shri", "hindi", "raam" and "bharat"; the last one is
    first rewritten to "bhaarat". *)
Theorem translate_golden (unicode_lower : str -> str) :
  translate unicode_lower (U "") = Ok (U "")
  /\ translate unicode_lower (U "namaste") = Ok (U "नमस्ते")
  /\ translate unicode_lower (U "namaskaar") = Ok (U "नमस्कार")
  /\ translate unicode_lower (U "sanskrit") = Ok (U "संस्कृत")
  /\ translate unicode_lower (U "shri") = Ok (U "श्री")
  /\ translate unicode_lower (U "hindi") = Ok (U "हिंदी")
  /\ translate unicode_lower (U "raam") = Ok (U "राम")
  /\ translate unicode_lower (U "bharat") = Ok (U "भारत")
  /\ rewrite unicode_lower (U "bharat") = U "bhaarat".
Proof. repeat split; vm_compute; reflexivity. Qed.

(* ================================================================= *)
(** ** Longest match *)

Lemma double_danda_first (text : str) (pos : nat) :
  matches_at text pos (U "..") = true ->
  first_match text pos vowel_patterns = Some (U "..").
Proof.
  unfold matches_at. rewrite startswith_iff. intros [t Ht].
  unfold first_match, matches_at. rewrite Ht. reflexivity.
Qed.

Lemma double_danda_no_matra (text : str) (pos : nat) :
  matches_at text pos (U "..") = true ->
  first_match text pos matra_patterns = None.
Proof.
  unfold matches_at. rewrite startswith_iff. intros [t Ht].
  unfold first_match, matches_at. rewrite Ht. reflexivity.
Qed.

Lemma special_pair (p q : str) :
  In p special_keys -> In q special_keys -> strict_prefix p q ->
  p = U "." /\ q = U "..".
Proof.
  intros Hp Hq [Hs Hl]. unfold special_keys in *. cbn [In] in Hp, Hq.
  repeat match goal with
         | H : _ \/ _ |- _ => destruct H as [H | H]
         | H : False |- _ => destruct H
         end; subst; cbn in Hs, Hl; try discriminate; try lia.
  now split.
Qed.

(** C2: for two patterns of one category, [p] a strict prefix of [q], that
    both match at a position, each search of the scanner stops at a
    pattern [r] at least as long as [q], emits the glyph of [r] and
    consumes the length of [r]; it never stops at the shorter [p].  For
    the special category the scanner emits the glyph of the longer pattern
    and consumes its length, at the cursor and in the look-ahead after a
    consonant, through the vowel search, which precedes the special
    loop. *)
Theorem longest_match_selected (text : str) (pos : nat) (p q : str) :
  strict_prefix p q ->
  matches_at text pos q = true ->
  matches_at text pos p = true
  /\ (In p (keys CONSONANTS) -> In q (keys CONSONANTS) ->
      exists r, In r (keys CONSONANTS) /\ matches_at text pos r = true
        /\ length p < length r
        /\ forall result,
            consonant_loop text consonant_patterns pos result =
            (st <- on_consonant text r (dict_get CONSONANTS r) pos result ;;
             Ok (Some st)))
  /\ (In p (keys VOWELS) -> In q (keys VOWELS) ->
      exists r, In r (keys VOWELS) /\ matches_at text pos r = true
        /\ length p < length r
        /\ forall i result,
            vowel_loop text vowel_patterns pos result =
            Some (pos + length r, result ++ [dict_get VOWELS r])
            /\ vowel_lookahead text vowel_patterns pos i result =
               Some (pos + length r, result ++ [dict_get VOWELS r]))
  /\ (In p (keys MATRAS) -> In q (keys MATRAS) ->
      exists r, In r (keys MATRAS) /\ matches_at text pos r = true
        /\ length p < length r
        /\ forall result,
            matra_lookahead text matra_patterns pos result =
            Some (pos + length r, result ++ [dict_get MATRAS r]))
  /\ (In p (keys SPECIAL) -> In q (keys SPECIAL) ->
      (forall result,
          loop_body text pos result =
          Ok (pos + length q, result ++ [dict_get SPECIAL q]))
      /\ (forall c g i result,
             pos = i + length c ->
             on_consonant text c g i result =
             Ok (pos + length q, result ++ [g; dict_get SPECIAL q]))).
Proof.
  intros [Hs Hl] Hm.
  split; [eapply matches_at_prefix; eauto|].
  split; [|split; [|split]]; intros Hp Hq.
  - destruct (first_match_covers text pos CONSONANTS consonant_patterns q
                consonant_patterns_eq Hq Hm) as [r [Er [Hr [Hrm Hlen]]]].
    exists r. split.
    { eapply Permutation_in; [symmetry; apply sorted_by_len_desc_perm|].
      exact Hr. }
    split; [exact Hrm|]. split; [lia|].
    intros result. now rewrite consonant_loop_spec, Er.
  - destruct (first_match_covers text pos VOWELS vowel_patterns q
                vowel_patterns_eq Hq Hm) as [r [Er [Hr [Hrm Hlen]]]].
    exists r. split.
    { eapply Permutation_in; [symmetry; apply sorted_by_len_desc_perm|].
      exact Hr. }
    split; [exact Hrm|]. split; [lia|].
    intros i result. rewrite vowel_loop_spec, vowel_lookahead_spec, Er.
    split; [reflexivity|].
    assert (Ea : str_eqb r pat_a = false).
    { apply str_eqb_neq. intros ->.
      pose proof (vowel_proper p (index_in VOWELS vowel_patterns p
                                    vowel_patterns_eq Hp)) as Pp.
      apply proper_pattern_length in Pp. cbn in Hlen. lia. }
    now rewrite Ea.
  - destruct (first_match_covers text pos MATRAS matra_patterns q
                matra_patterns_eq Hq Hm) as [r [Er [Hr [Hrm Hlen]]]].
    exists r. split.
    { eapply Permutation_in; [symmetry; apply sorted_by_len_desc_perm|].
      exact Hr. }
    split; [exact Hrm|]. split; [lia|].
    intros result. now rewrite matra_lookahead_spec, Er.
  - destruct (special_pair p q Hp Hq (conj Hs Hl)) as [-> ->].
    pose proof (double_danda_first text pos Hm) as Hv. split.
    + intros result. now rewrite (loop_body_vowel text pos result (U "..") Hv).
    + intros c g i result ->.
      now rewrite (on_consonant_vowel text c g i result (U "..")
                     (double_danda_no_matra text _ Hm) Hv).
Qed.

Lemma longest_match_selected_witness :
  exists r, In r (keys CONSONANTS) /\ length (U "k") < length r
    /\ consonant_loop (U "khaa") consonant_patterns 0 [] =
       (st <- on_consonant (U "khaa") r (dict_get CONSONANTS r) 0 [] ;;
        Ok (Some st)).
Proof.
  destruct (longest_match_selected (U "khaa") 0 (U "k") (U "kh"))
    as [_ [H _]].
  - split; [reflexivity | cbn; lia].
  - reflexivity.
  - destruct H as [r [Hr [_ [Hl He]]]].
    + vm_compute. tauto.
    + vm_compute. tauto.
    + exists r. split; [exact Hr|]. split; [exact Hl|]. apply He.
Defined.

(* ================================================================= *)
(** ** The special keys are not an index *)

(** C6 on the code: the scanner iterates [SPECIAL.keys()] in declaration
    order, where "." stands before "..", not by descending length (on
    "5" the scanner reaches that loop); a search over them stops at the
    shorter pattern.  The output is not
    affected, because the vowel search, which holds the same four
    patterns sorted, comes first. *)
Theorem special_keys_unsorted :
  special_keys = [U "M"; U "H"; U "."; U ".."]
  /\ special_keys <> sorted_by_len_desc (keys SPECIAL)
  /\ ~ StronglySorted len_ge special_keys
  /\ (consonant_loop (U "5") consonant_patterns 0 [] = Ok None
      /\ vowel_loop (U "5") vowel_patterns 0 [] = None
      /\ special_loop (U "5") special_keys 0 [] = Ok None)
  /\ special_loop (U "..") special_keys 0 [] = Ok (Some (1, [Some (U "।")]))
  /\ forall unicode_lower, translate unicode_lower (U "..") = Ok (U "॥").
Proof.
  split; [reflexivity|]. split; [discriminate|].
  split; [|split; [repeat split | split; [reflexivity | reflexivity]]].
  intros H. unfold special_keys in H.
  apply StronglySorted_inv in H as [H _].
  apply StronglySorted_inv in H as [H _].
  apply StronglySorted_inv in H as [_ H].
  apply Forall_inv in H. unfold len_ge in H. cbn in H. lia.
Qed.

(* ================================================================= *)
(** ** Termination *)

(** C9: every iteration of the scanning loop moves the cursor strictly
    forward and never beyond the end of the text, so the loop started at
    cursor [i] ends within [len(text) - i] iterations, and the whole scan
    within [len(text)] iterations. *)
Theorem scan_terminates (text : str) (i : nat) (result : buffer) :
  i < length text ->
  (exists i' result',
      loop_body text i result = Ok (i', result') /\ i < i' <= length text)
  /\ (exists out, forall fuel,
         length text - i <= fuel -> while_loop text fuel i result = Ok out)
  /\ (exists out, while_loop text (length text) 0 [] = Ok out).
Proof.
  intros Hi. split; [|split].
  - destruct (loop_body_step text i result Hi) as [i' [d [Hb Hs]]].
    exists i', (result ++ map Some d). split; [exact Hb|].
    eapply step_progress; eauto.
  - destruct (while_loop_run text (length text - i) i result (le_n _))
      as [ds [Hw _]].
    exists (result ++ map Some ds). intros fuel Hf.
    eapply while_loop_fuel_mono; eauto.
  - destruct (while_loop_run text (length text) 0 []) as [ds [Hw _]]; [lia|].
    eauto.
Qed.

Lemma scan_terminates_witness :
  (exists i' result',
      loop_body (U "kn") 0 [] = Ok (i', result') /\ 0 < i' <= length (U "kn"))
  /\ (exists out, forall fuel,
         length (U "kn") - 0 <= fuel -> while_loop (U "kn") fuel 0 [] = Ok out)
  /\ (exists out, while_loop (U "kn") (length (U "kn")) 0 [] = Ok out).
Proof. apply (scan_terminates (U "kn") 0 []). cbn. lia. Defined.

(* ================================================================= *)
(** ** No exception, and the verbatim copy *)

Lemma loop_body_uncovered (text : str) (i : nat) (c : codepoint)
      (result : buffer) :
  nth_error text i = Some c -> uncovered text i ->
  loop_body text i result = Ok (i + 1, result ++ [Some [c]]).
Proof.
  intros Hc [Hk [Hv _]]. destruct (N.eq_dec c space) as [-> | Hsp].
  - now apply loop_body_space.
  - now apply loop_body_pass.
Qed.

(** C7: [translate] raises no exception and returns a string for every
    input; a character at the cursor where no consonant, vowel or special
    pattern matches is appended to the buffer as it is, the cursor moves
    by one, and the character stays at that place of the buffer until the
    loop ends. *)
Theorem translate_never_raises (unicode_lower : str -> str) (text : str) :
  (exists out, translate unicode_lower text = Ok out)
  /\ forall (t : str) (i : nat) (c : codepoint) (result : buffer),
      nth_error t i = Some c -> uncovered t i ->
      loop_body t i result = Ok (i + 1, result ++ [Some [c]])
      /\ exists ds,
          while_loop t (length t - i) i result =
          Ok (result ++ [Some [c]] ++ map Some ds).
Proof.
  split.
  - destruct (translate_run unicode_lower text) as [ds [H _]]. eauto.
  - intros t i c result Hc Hu.
    pose proof (loop_body_uncovered t i c result Hc Hu) as Hb.
    split; [exact Hb|].
    assert (Hi : i < length t) by (apply nth_error_Some; congruence).
    destruct (length t - i) as [|fuel] eqn:Ef; [lia|].
    rewrite (while_loop_unfold t fuel i result Hi), Hb. cbn [bind fst snd].
    destruct (while_loop_run t fuel (i + 1) (result ++ [Some [c]]))
      as [ds [Hw _]]; [lia|].
    exists ds. now rewrite Hw, <- app_assoc.
Qed.

Lemma translate_never_raises_witness :
  (exists out, translate (fun s => s) (U "k5") = Ok out)
  /\ loop_body (U "k5") 1 [Some (U "क")] = Ok (2, [Some (U "क"); Some (U "5")])
  /\ exists ds,
      while_loop (U "k5") 1 1 [Some (U "क")] =
      Ok ([Some (U "क")] ++ [Some (U "5")] ++ map Some ds).
Proof.
  destruct (translate_never_raises (fun s => s) (U "k5")) as [H1 H2].
  split; [exact H1|].
  apply (H2 (U "k5") 1 53%N [Some (U "क")]).
  - reflexivity.
  - repeat split.
Defined.

(* ================================================================= *)
(** ** Word-final "n" *)

(** C5: when the consonant search at the cursor stops at the pattern "n"
    and the position after it is the end of the text, the iteration
    leaves the anusvara where the glyph of "n" was appended, the loop
    ends, and the returned string ends with the anusvara. *)
Theorem final_n_anusvara (text : str) (i fuel : nat) (result : buffer) :
  first_match text i consonant_patterns = Some pat_n ->
  length text <= i + length pat_n ->
  dict_get CONSONANTS pat_n = Some (U "न")
  /\ loop_body text i result = Ok (length text, result ++ [Some anusvara])
  /\ while_loop text (S fuel) i result = Ok (result ++ [Some anusvara])
  /\ forall s, join_result result = Ok s ->
       (r <- while_loop text (S fuel) i result ;; join_result r)
       = Ok (s ++ U "ं").
Proof.
  intros Hn Hend.
  assert (Hlen : i + length pat_n = length text).
  { apply first_match_some in Hn as [Hin Hm].
    pose proof (proper_match_bound text i pat_n eq_refl Hm). lia. }
  assert (Hb : loop_body text i result
               = Ok (length text, result ++ [Some anusvara])).
  { rewrite (loop_body_consonant text i result pat_n Hn).
    rewrite on_consonant_final_n by exact Hend. now rewrite Hlen. }
  assert (Hw : while_loop text (S fuel) i result
               = Ok (result ++ [Some anusvara])).
  { rewrite while_loop_unfold by (cbn in Hlen; lia).
    rewrite Hb. cbn [bind fst snd]. now apply while_loop_at_end. }
  split; [reflexivity|]. split; [exact Hb|]. split; [exact Hw|].
  intros s Hs. rewrite Hw. cbn [bind].
  clear - Hs. revert s Hs. induction result as [|[g|] result IH]; intros s Hs.
  - injection Hs as <-. reflexivity.
  - cbn [join_result app] in *.
    destruct (join_result result) as [t| |] eqn:Et; try discriminate.
    cbn [bind] in Hs. injection Hs as <-.
    rewrite (IH t eq_refl). cbn [bind]. now rewrite app_assoc.
  - discriminate.
Qed.

Lemma final_n_anusvara_witness :
  loop_body (U "main") 3 [Some (U "म"); Some (U "ै")]
  = Ok (4, [Some (U "म"); Some (U "ै"); Some (U "ं")])
  /\ translate (fun s => s) (U "main") = Ok (U "मैं").
Proof.
  destruct (final_n_anusvara (U "main") 3 0 [Some (U "म"); Some (U "ै")])
    as [_ [H _]]; [reflexivity | cbn; lia |].
  split; [exact H | reflexivity].
Defined.

(* ================================================================= *)
(** ** Conjuncts *)

Lemma step_consonant_head (text : str) (i i' : nat) (d : list str) (q gq : str) :
  step text i i' d ->
  first_match text i consonant_patterns = Some q ->
  dict_get CONSONANTS q = Some gq ->
  exists tail, d = consonant_cluster text i q gq :: tail.
Proof.
  intros Hs Hq Hg. unfold consonant_cluster.
  assert (B : forall pos pats r,
             forallb proper_pattern pats = true ->
             first_match text pos pats = Some r ->
             (length text <=? pos) = false).
  { intros pos pats r Hp Hr. apply Nat.leb_gt.
    apply first_match_some in Hr as [Hin Hm].
    pose proof (proper_match_bound text pos r (forallb_In _ _ Hp _ Hin) Hm).
    lia. }
  destruct Hs as [Hsp | p g m gm Hp Hpg Hm Hmg | p g Hp Hpg Hm Hv
                 | p g v gv Hp Hpg Hm Hv Hva Hvg | Hp Hend
                 | p g q' Hp Hpg Hm Hv Hk | p g Hp Hpg Hm Hv Hn Hk
                 | v gv Hv Hvg | c Hc Hsp Hk Hv].
  - apply first_match_some in Hq as [Hin Hqm].
    destruct (proper_match_head text i q (consonant_proper q Hin) Hqm)
      as [c [Hc Hne]]. congruence.
  - assert (p = q) by congruence. subst p. assert (g = gq) by congruence.
    subst g. rewrite (B _ matra_patterns _ eq_refl Hm), andb_false_r. eauto.
  - assert (p = q) by congruence. subst p. assert (g = gq) by congruence.
    subst g. rewrite (B _ vowel_patterns _ eq_refl Hv), andb_false_r. eauto.
  - assert (p = q) by congruence. subst p. assert (g = gq) by congruence.
    subst g. rewrite (B _ vowel_patterns _ eq_refl Hv), andb_false_r. eauto.
  - assert (q = pat_n) by congruence. subst q.
    apply Nat.leb_le in Hend. rewrite Hend. eauto.
  - assert (p = q) by congruence. subst p. assert (g = gq) by congruence.
    subst g. rewrite (B _ consonant_patterns _ eq_refl Hk), andb_false_r. eauto.
  - assert (p = q) by congruence. subst p. assert (g = gq) by congruence.
    subst g.
    assert (E : str_eqb q pat_n && (length text <=? i + length q) = false).
    { destruct Hn as [Hn | Hn].
      - apply str_eqb_neq in Hn. now rewrite Hn.
      - apply Nat.leb_gt in Hn. rewrite Hn. apply andb_false_r. }
    rewrite E. eauto.
  - pose proof Hv as Hv'. apply first_match_some in Hv' as [Hin Hvm].
    rewrite (vowel_excludes_consonant text i v Hin Hvm) in Hq. discriminate.
  - congruence.
Qed.

(** On "kn" the following consonant is a text-final "n": the anusvara
    stands after the halant, and the glyph of "n" is not in the output. *)
Lemma conjunct_claim_fails_on_kn :
  translate (fun s => s) (U "kn") = Ok (U "क्ं")
  /\ ~ In 2344%N (U "क्ं")
  /\ dict_get CONSONANTS (U "n") = Some [2344%N]
  /\ ~ conjunct_claim.
Proof.
  split; [reflexivity|]. split; [cbn; intuition discriminate|].
  split; [reflexivity|].
  intros H.
  destruct (H (U "kn") 0 [] (U "k") (U "क") (U "n") (U "न"))
    as [i2 [r1 [tail [H1 H2]]]]; try reflexivity.
  - exists 110%N. split; [reflexivity | discriminate].
  - vm_compute in H1. injection H1 as <-.
    vm_compute in H2. injection H2 as _ H2. discriminate.
Qed.

(** C4, amended: a consonant followed at once by a consonant gives the
    base glyph, the halant and then the cluster of the following
    consonant: its glyph, or the anusvara when it is a text-final "n". *)
Theorem conjunct_halant (text : str) (i : nat) (result : buffer)
        (p g q gq : str) :
  first_match text i consonant_patterns = Some p ->
  dict_get CONSONANTS p = Some g ->
  first_match text (i + length p) matra_patterns = None ->
  first_match text (i + length p) vowel_patterns = None ->
  (exists c, nth_error text (i + length p) = Some c /\ c <> space) ->
  first_match text (i + length p) consonant_patterns = Some q ->
  dict_get CONSONANTS q = Some gq ->
  exists i2 tail,
    loop_body text i result =
    Ok (i + length p, result ++ [Some g; Some halant])
    /\ loop_body text (i + length p) (result ++ [Some g; Some halant]) =
       Ok (i2, result
               ++ [Some g; Some halant;
                   Some (consonant_cluster text (i + length p) q gq)]
               ++ map Some tail).
Proof.
  intros Hp Hg Hm Hv [c [Hc Hsp]] Hq Hgq.
  assert (Hlt : i + length p < length text)
    by (apply nth_error_Some; congruence).
  assert (H1 : loop_body text i result
               = Ok (i + length p, result ++ [Some g; Some halant])).
  { rewrite (loop_body_consonant text i result p Hp), Hg.
    rewrite (on_consonant_plain text p (Some g) i result Hm Hv (or_intror Hlt)).
    now rewrite Hq. }
  destruct (loop_body_step text (i + length p)
              (result ++ [Some g; Some halant]) Hlt) as [i2 [d [H2 Hs]]].
  destruct (step_consonant_head text (i + length p) i2 d q gq Hs Hq Hgq)
    as [tail ->].
  exists i2, tail. split; [exact H1|].
  rewrite H2, <- app_assoc. reflexivity.
Qed.

Lemma conjunct_halant_witness :
  exists i2 tail,
    loop_body (U "namaste") 4 [Some (U "न"); Some (U "म")] =
    Ok (5, [Some (U "न"); Some (U "म"); Some (U "स"); Some (U "्")])
    /\ loop_body (U "namaste") 5
         [Some (U "न"); Some (U "म"); Some (U "स"); Some (U "्")] =
       Ok (i2, [Some (U "न"); Some (U "म"); Some (U "स"); Some (U "्");
                Some (U "त")] ++ map Some tail).
Proof.
  apply (conjunct_halant (U "namaste") 4 [Some (U "न"); Some (U "म")]
           (U "s") (U "स") (U "t") (U "त")); try reflexivity.
  exists 116%N. split; [reflexivity | discriminate].
Defined.

(* ================================================================= *)
(** ** The characters of the output *)

Lemma dict_get_in (d : dict) (k v : str) :
  dict_get d k = Some v -> In (k, v) d.
Proof.
  induction d as [|[k' v'] d IH]; cbn [dict_get]; [discriminate|].
  destruct (str_eqb k' k) eqn:E.
  - apply str_eqb_eq in E. intros [= ->]. subst. now left.
  - intros H. right. auto.
Qed.

Lemma dict_values (f : str -> bool) (d : dict) (k v : str) :
  forallb (fun kv => f (snd kv)) d = true ->
  dict_get d k = Some v -> f v = true.
Proof.
  intros Hf Hg. apply dict_get_in in Hg.
  exact (forallb_In _ _ Hf _ Hg).
Qed.

Lemma devanagari_glyph (d : dict) (k v : str) :
  d = CONSONANTS \/ d = VOWELS \/ d = MATRAS ->
  dict_get d k = Some v -> Forall (fun c => is_devanagari c = true) v.
Proof.
  intros Hd Hg. apply Forall_forall. apply forallb_forall.
  apply (dict_values (forallb is_devanagari) d k v); [|exact Hg].
  destruct Hd as [-> | [-> | ->]]; reflexivity.
Qed.

Lemma step_alphabet (t : str) (i i' : nat) (d : list str) :
  step t i i' d -> Forall (output_char t) (concat d).
Proof.
  assert (D : forall g, Forall (fun c => is_devanagari c = true) g ->
                        Forall (output_char t) g).
  { intros g. apply Forall_impl. intros c Hc. now left. }
  assert (K : forall k v, dict_get CONSONANTS k = Some v ->
                          Forall (output_char t) v).
  { intros k v H. apply D. apply (devanagari_glyph CONSONANTS k v); auto. }
  assert (V : forall k v, dict_get VOWELS k = Some v ->
                          Forall (output_char t) v).
  { intros k v H. apply D. apply (devanagari_glyph VOWELS k v); auto. }
  assert (M : forall k v, dict_get MATRAS k = Some v ->
                          Forall (output_char t) v).
  { intros k v H. apply D. apply (devanagari_glyph MATRAS k v); auto. }
  destruct 1; cbn [concat]; rewrite ?app_nil_r;
    repeat (apply Forall_app; split); eauto.
  - constructor; [|constructor]. right. now left.
  - apply D. repeat constructor.
  - apply D. repeat constructor.
  - constructor; [|constructor]. right. right. exists i. split; [assumption|].
    repeat split; try assumption.
    apply first_match_none. now apply no_vowel_no_special.
Qed.

Lemma run_alphabet (t : str) (i : nat) (ds : list str) :
  run t i ds -> Forall (output_char t) (concat ds).
Proof.
  induction 1 as [|i i' d ds Hi Hs Hr IH]; [constructor|].
  rewrite concat_app. apply Forall_app. split; [|exact IH].
  eapply step_alphabet; eauto.
Qed.

(** C8: every character of the string [translate] returns is a code point
    of the Devanagari block, an ASCII space, or a character of the
    rewritten input that the fallback copied. *)
Theorem output_alphabet (unicode_lower : str -> str) (text out : str) :
  translate unicode_lower text = Ok out ->
  Forall (output_char (rewrite unicode_lower text)) out.
Proof.
  intros H. destruct (translate_run unicode_lower text) as [ds [Ht Hr]].
  rewrite Ht in H. injection H as <-. eapply run_alphabet; eauto.
Qed.

Lemma output_alphabet_witness :
  Forall (output_char (rewrite (fun s => s) (U "shri 5")))
         (U "श्री 5").
Proof.
  apply (output_alphabet (fun s => s) (U "shri 5") (U "श्री 5")).
  reflexivity.
Defined.

(* ================================================================= *)
(** ** Words, [split] and [join] *)

Lemma split_from_words (s cur : str) :
  forallb (fun c => negb (isspace c)) cur = true ->
  Forall is_word (split_from s cur).
Proof.
  revert cur. induction s as [|c s IH]; intros cur Hcur; cbn [split_from].
  - destruct cur as [|a cur]; [constructor|].
    constructor; [|constructor]. split; [discriminate | exact Hcur].
  - destruct (isspace c) eqn:Ec.
    + destruct cur as [|a cur]; [now apply IH|].
      constructor; [split; [discriminate | exact Hcur] | now apply IH].
    + apply IH. rewrite forallb_app, Hcur. cbn. now rewrite Ec.
Qed.

Lemma split_words (s : str) : Forall is_word (split s).
Proof. now apply split_from_words. Qed.

Lemma split_from_word (w s cur : str) :
  forallb (fun c => negb (isspace c)) w = true ->
  split_from (w ++ s) cur = split_from s (cur ++ w).
Proof.
  revert cur. induction w as [|c w IH]; intros cur Hw.
  - now rewrite app_nil_r.
  - cbn [forallb] in Hw. apply andb_true_iff in Hw as [Hc Hw].
    cbn [app split_from]. apply negb_true_iff in Hc. rewrite Hc.
    rewrite IH by exact Hw. now rewrite <- app_assoc.
Qed.

(** Splitting a text of words joined by single spaces gives the words
    back. *)
Lemma split_join (ws : list str) :
  Forall is_word ws -> split (join [space] ws) = ws.
Proof.
  unfold split. induction 1 as [|w ws [Hne Hw] Hws IH]; [reflexivity|].
  destruct ws as [|w2 ws].
  - cbn [join]. pose proof (split_from_word w [] [] Hw) as E.
    rewrite app_nil_r in E. rewrite E. cbn [app split_from].
    destruct w; [contradiction | reflexivity].
  - change (join [space] (w :: w2 :: ws))
      with (w ++ [space] ++ join [space] (w2 :: ws)).
    rewrite split_from_word by exact Hw. cbn [app split_from].
    replace (isspace space) with true by reflexivity.
    destruct w as [|a w]; [contradiction|]. now rewrite IH.
Qed.

Lemma split_from_chars (s cur w : str) (c : codepoint) :
  In w (split_from s cur) -> In c w -> In c cur \/ In c s.
Proof.
  revert cur. induction s as [|a s IH]; intros cur Hw Hc; cbn [split_from] in Hw.
  - destruct cur as [|b cur]; [destruct Hw|].
    destruct Hw as [<- | []]. now left.
  - destruct (isspace a).
    + destruct cur as [|b cur].
      * destruct (IH [] Hw Hc) as [[] | H]. right. now right.
      * destruct Hw as [<- | Hw]; [now left|].
        destruct (IH [] Hw Hc) as [[] | H]. right. now right.
    + destruct (IH _ Hw Hc) as [H | H].
      * apply in_app_or in H as [H | [<- | []]]; [now left|].
        right. now left.
      * right. now right.
Qed.

Lemma join_chars (sep : str) (ws : list str) (c : codepoint) :
  In c (join sep ws) -> In c sep \/ exists w, In w ws /\ In c w.
Proof.
  induction ws as [|w ws IH]; [intros []|].
  destruct ws as [|w2 ws].
  - cbn [join]. intros H. right. exists w. split; [now left | exact H].
  - change (join sep (w :: w2 :: ws)) with (w ++ sep ++ join sep (w2 :: ws)).
    intros H. apply in_app_or in H as [H | H].
    + right. exists w. split; [now left | exact H].
    + apply in_app_or in H as [H | H]; [now left|].
      destruct (IH H) as [H' | [w' [Hw' Hc]]]; [now left|].
      right. exists w'. split; [now right | exact Hc].
Qed.

Section RewriterFacts.

Variable unicode_lower : str -> str.

(** The word loop is a [map] over the words. *)
Lemma words_loop_map (special replacement : str) (words new_words : list str) :
  words_loop unicode_lower special replacement words new_words =
  new_words
    ++ map (fun word => if str_eqb (lower unicode_lower word) special
                        then replacement else word) words.
Proof.
  revert new_words. induction words as [|w words IH]; intros new_words;
    cbn [words_loop map].
  - now rewrite app_nil_r.
  - destruct (str_eqb (lower unicode_lower w) special);
      rewrite IH, <- app_assoc; reflexivity.
Qed.

(** The characters of the rewritten text: those of the text, the space
    of the join, and those of the expansions. *)
Lemma special_cases_loop_chars (items : dict) (text text_lower : str)
      (c : codepoint) :
  In c (special_cases_loop unicode_lower items text text_lower) ->
  In c text \/ c = space \/ exists kv, In kv items /\ In c (snd kv).
Proof.
  induction items as [|[special replacement] items IH];
    cbn [special_cases_loop]; [now left|].
  destruct (contains text_lower special).
  - rewrite words_loop_map. cbn [app]. intros H.
    apply join_chars in H as [[<- | []] | [w [Hw Hc]]]; [right; now left|].
    apply in_map_iff in Hw as [w0 [E Hw0]].
    destruct (str_eqb (lower unicode_lower w0) special).
    + subst w. right. right. exists (special, replacement).
      split; [now left | exact Hc].
    + subst w0. destruct (split_from_chars text [] w c Hw0 Hc) as [[] | H].
      now left.
  - intros H. destruct (IH H) as [H' | [H' | [kv [Hkv Hc]]]]; auto.
    right. right. exists kv. split; [now right | exact Hc].
Qed.

Lemma rewrite_chars (text : str) (c : codepoint) :
  In c (rewrite unicode_lower text) ->
  (128 <= c)%N -> In c text.
Proof.
  intros H Hc. apply special_cases_loop_chars in H as [H | [-> | [kv [Hkv H]]]].
  - exact H.
  - cbv in Hc. now contradiction Hc.
  - assert (A : forallb (fun kv => forallb is_ascii (snd kv)) special_cases
                = true) by reflexivity.
    pose proof (forallb_In _ _ A _ Hkv) as A'. cbv beta in A'.
    pose proof (forallb_In _ _ A' _ H) as A''. unfold is_ascii in A''.
    apply N.ltb_lt in A''. lia.
Qed.

End RewriterFacts.

(* ================================================================= *)
(** ** Halants *)

Lemma halant_ok_followed (s : str) : halant_ok s = true -> halant_followed s.
Proof.
  induction s as [|c s IH]; intros H pre post E.
  - destruct pre; discriminate.
  - cbn [halant_ok] in H. apply andb_true_iff in H as [Hc Hs].
    destruct pre as [|a pre]; cbn [app] in E; injection E as -> ->.
    + rewrite N.eqb_refl in Hc. destruct post as [|c' post]; [discriminate|].
      exists c', post. split; [reflexivity|].
      intros ->. discriminate.
    + eapply IH; eauto.
Qed.

Lemma halant_ok_app (a b : str) :
  halant_ok a = true -> halant_ok b = true -> halant_ok (a ++ b) = true.
Proof.
  induction a as [|c a IH]; intros Ha Hb; [exact Hb|].
  cbn [halant_ok app] in *. apply andb_true_iff in Ha as [Hc Ha].
  rewrite (IH Ha Hb), andb_true_r.
  destruct (c =? halant_cp)%N; [|reflexivity].
  destruct a; [discriminate | exact Hc].
Qed.

Lemma halant_ok_single (c : codepoint) :
  c <> halant_cp -> halant_ok [c] = true.
Proof. intros H. apply N.eqb_neq in H. cbn. now rewrite H. Qed.

Lemma halant_ok_glyph (d : dict) (k v : str) :
  d = CONSONANTS \/ d = VOWELS \/ d = MATRAS ->
  dict_get d k = Some v -> halant_ok v = true.
Proof.
  intros Hd. apply dict_values. destruct Hd as [-> | [-> | ->]]; reflexivity.
Qed.

(** A consonant glyph is not empty and does not begin with a space. *)
Lemma consonant_glyph_proper (k v : str) :
  dict_get CONSONANTS k = Some v -> proper_pattern v = true.
Proof. apply dict_values. reflexivity. Qed.

Section HalantInvariant.

Variable t : str.
Hypothesis no_halant : ~ In halant_cp t.

Lemma step_cluster_ok (i i' : nat) (d : list str) :
  step t i i' d ->
  (exists p g q, d = [g; halant]
                 /\ first_match t i consonant_patterns = Some p
                 /\ dict_get CONSONANTS p = Some g
                 /\ i' = i + length p
                 /\ first_match t i' consonant_patterns = Some q)
  \/ halant_ok (concat d) = true.
Proof.
  assert (G : forall d k v, d = CONSONANTS \/ d = VOWELS \/ d = MATRAS ->
                            dict_get d k = Some v -> halant_ok v = true)
    by exact halant_ok_glyph.
  destruct 1 as [Hsp | p g m gm Hp Hpg Hm Hmg | p g Hp Hpg Hm Hv
                | p g v gv Hp Hpg Hm Hv Hva Hvg | Hp Hend
                | p g q' Hp Hpg Hm Hv Hk | p g Hp Hpg Hm Hv Hn Hk
                | v gv Hv Hvg | c Hc Hsp Hk Hv];
    cbn [concat]; rewrite ?app_nil_r.
  - now right.
  - right. apply halant_ok_app; eauto.
  - right. eauto.
  - right. apply halant_ok_app; eauto.
  - now right.
  - left. exists p, g, q'. auto.
  - right. eauto.
  - right. eauto.
  - right. apply halant_ok_single. intros ->. apply no_halant.
    eapply nth_error_In; eauto.
Qed.

(** The clusters of a run: every halant is followed, and where a
    consonant pattern matches at the cursor the run begins with a
    character that is no space. *)
Lemma run_halant (i : nat) (ds : list str) :
  run t i ds ->
  halant_ok (concat ds) = true
  /\ forall q, first_match t i consonant_patterns = Some q ->
               proper_pattern (concat ds) = true.
Proof.
  induction 1 as [i Hend | i i' d ds Hi Hs Hr [IH1 IH2]].
  - split; [reflexivity|]. intros q Hq.
    rewrite (first_match_end t consonant_patterns eq_refl i Hend) in Hq.
    discriminate.
  - rewrite concat_app. split.
    + destruct (step_cluster_ok i i' d Hs)
        as [[p [g [q [-> [Hp [Hg [-> Hq]]]]]]] | Hok].
      * cbn [concat]. rewrite app_nil_r, <- app_assoc.
        apply halant_ok_app; [apply (halant_ok_glyph CONSONANTS p g); auto|].
        specialize (IH2 q Hq). change (halant ++ concat ds)
          with (halant_cp :: concat ds).
        cbn [halant_ok]. rewrite N.eqb_refl, IH1, andb_true_r.
        destruct (concat ds); [discriminate | exact IH2].
      * now apply halant_ok_app.
    + intros q Hq. pose proof Hq as Hq'.
      apply first_match_some in Hq' as [Hin _].
      destruct (get_of_truthy CONSONANTS q (consonant_truthy q Hin))
        as [gq Hgq].
      destruct (step_consonant_head t i i' d q gq Hs Hq Hgq) as [tail ->].
      cbn [concat]. unfold consonant_cluster.
      pose proof (consonant_glyph_proper q gq Hgq) as Pg.
      destruct (str_eqb q pat_n && (length t <=? i + length q));
        [reflexivity|].
      destruct gq; [discriminate | exact Pg].
Qed.

End HalantInvariant.

(** C10: for an input without a halant, the string [translate] returns
    does not end with a halant and no halant of it is followed by a
    space: every halant is followed by a further character that is no
    space. *)
Theorem halant_never_dangling (unicode_lower : str -> str) (text out : str) :
  ~ In halant_cp text ->
  translate unicode_lower text = Ok out ->
  halant_followed out.
Proof.
  intros Hno H. destruct (translate_run unicode_lower text) as [ds [Ht Hr]].
  rewrite Ht in H. injection H as <-.
  apply halant_ok_followed.
  eapply run_halant; [|exact Hr].
  intros Hin. apply Hno. eapply rewrite_chars; [exact Hin|].
  unfold halant_cp. lia.
Qed.

Lemma halant_never_dangling_witness : halant_followed (U "क्ं").
Proof.
  apply (halant_never_dangling (fun s => s) (U "kn") (U "क्ं")).
  - cbn. intuition discriminate.
  - reflexivity.
Defined.

(* ================================================================= *)
(** ** The special-case rewriter against its contract *)

Section RewriterContract.

Variable unicode_lower : str -> str.

Lemma special_cases_loop_spec (items : dict) (text text_lower : str) :
  special_cases_loop unicode_lower items text text_lower =
  match find (fun kv => contains text_lower (fst kv)) items with
  | Some (alias, expansion) =>
      join [space] (map (replace_word unicode_lower alias expansion) (split text))
  | None => text
  end.
Proof.
  induction items as [|[special replacement] items IH];
    cbn [special_cases_loop find fst]; [reflexivity|].
  destruct (contains text_lower special); [|exact IH].
  now rewrite words_loop_map.
Qed.

Lemma expansion_is_word (alias expansion : str) :
  In (alias, expansion) special_cases -> is_word expansion.
Proof.
  intros H.
  assert (A : forallb (fun kv => proper_pattern (snd kv)
                                 && forallb (fun c => negb (isspace c)) (snd kv))
                      special_cases = true) by reflexivity.
  pose proof (forallb_In _ _ A _ H) as A'. cbn [snd] in A'.
  apply andb_true_iff in A' as [A1 A2]. split; [|exact A2].
  intros ->. discriminate.
Qed.

End RewriterContract.

(** Two spaces between words become one, also where no word equals an
    alias and only a longer word contains it. *)
Lemma rewrite_collapses_spacing :
  rewrite (fun s => s) (U "shri  raam") = U "shrii raam"
  /\ filter isspace (rewrite (fun s => s) (U "shri  raam"))
     <> filter isspace (U "shri  raam")
  /\ split (U "shrine  gate") = [U "shrine"; U "gate"]
  /\ rewrite (fun s => s) (U "shrine  gate") = U "shrine gate"
  /\ ~ spacing_preserved.
Proof.
  split; [reflexivity|]. split; [discriminate|].
  split; [reflexivity|]. split; [reflexivity|].
  intros H. specialize (H (fun s => s) (U "shri  raam")). discriminate.
Qed.

(** C3, amended: the rewriter applies the first alias, in table order,
    that occurs in the lower-cased input: it splits the text on white
    space, replaces the words that equal the alias in lower case by the
    expansion, joins the words with single spaces, and looks at no
    further alias; the words of the result are the words of the input,
    the other words kept as they are and in their order.  Where no alias
    occurs the text is unchanged. *)
Theorem rewrite_refines_spec (unicode_lower : str -> str) (text : str) :
  rewrite unicode_lower text = rewrite_spec unicode_lower text
  /\ (first_alias unicode_lower text = None ->
      rewrite unicode_lower text = text)
  /\ forall alias expansion,
      first_alias unicode_lower text = Some (alias, expansion) ->
      dict_get special_cases alias = Some expansion
      /\ contains (lower unicode_lower text) alias = true
      /\ rewrite unicode_lower text =
         join [space]
              (map (replace_word unicode_lower alias expansion) (split text))
      /\ split (rewrite unicode_lower text) =
         map (replace_word unicode_lower alias expansion) (split text).
Proof.
  assert (E : rewrite unicode_lower text = rewrite_spec unicode_lower text)
    by apply special_cases_loop_spec.
  split; [exact E|]. unfold rewrite_spec in E. split.
  - intros H. now rewrite H in E.
  - intros alias expansion H. rewrite H in E.
    pose proof H as H'. apply find_some in H' as [Hin Hc]. cbn [fst] in Hc.
    split.
    { revert Hin. unfold special_cases. cbn [In].
      intros [X | [X | [X | [X | []]]]]; injection X as <- <-; reflexivity. }
    split; [exact Hc|]. split; [exact E|].
    rewrite E. apply split_join.
    apply Forall_forall. intros w Hw. apply in_map_iff in Hw as [w0 [<- Hw0]].
    unfold replace_word. destruct (str_eqb _ alias).
    + eapply expansion_is_word; eauto.
    + pose proof (split_words text) as S. rewrite Forall_forall in S. auto.
Qed.

Lemma rewrite_refines_spec_witness :
  rewrite (fun s => s) (U "Jay shri  Raam!")
  = join [space] [U "Jay"; U "shrii"; U "Raam!"]
  /\ rewrite (fun s => s) (U "Jay  Raam!") = U "Jay  Raam!".
Proof.
  split.
  - destruct (rewrite_refines_spec (fun s => s) (U "Jay shri  Raam!"))
      as [_ [_ H]].
    destruct (H (U "shri") (U "shrii") eq_refl) as [_ [_ [H' _]]].
    exact H'.
  - destruct (rewrite_refines_spec (fun s => s) (U "Jay  Raam!"))
      as [_ [H _]].
    exact (H eq_refl).
Defined.

(* ================================================================= *)
(** ** Steps and iterations determine each other *)

(** A step is what the iteration does, whatever the buffer holds. *)
Lemma step_loop_body (text : str) (i i' : nat) (d : list str) :
  step text i i' d ->
  forall result, loop_body text i result = Ok (i', result ++ map Some d).
Proof.
  destruct 1 as [Hsp | p g m gm Hp Hpg Hm Hmg | p g Hp Hpg Hm Hv
                | p g v gv Hp Hpg Hm Hv Hva Hvg | Hp Hend
                | p g q' Hp Hpg Hm Hv Hk | p g Hp Hpg Hm Hv Hn Hk
                | v gv Hv Hvg | c Hc Hsp Hk Hv]; intros result.
  - now apply loop_body_space.
  - rewrite (loop_body_consonant text i result p Hp).
    rewrite (on_consonant_matra text p _ i result m Hm), Hpg, Hmg.
    reflexivity.
  - rewrite (loop_body_consonant text i result p Hp).
    rewrite (on_consonant_vowel text p _ i result pat_a Hm Hv), Hpg.
    reflexivity.
  - rewrite (loop_body_consonant text i result p Hp).
    rewrite (on_consonant_vowel text p _ i result v Hm Hv), Hpg, Hvg.
    apply str_eqb_neq in Hva. now rewrite Hva.
  - rewrite (loop_body_consonant text i result pat_n Hp).
    now apply on_consonant_final_n.
  - rewrite (loop_body_consonant text i result p Hp).
    assert (Hlt : i + length p < length text).
    { apply first_match_some in Hk as [Hin Hkm].
      pose proof (proper_match_bound text _ q' (consonant_proper q' Hin) Hkm).
      lia. }
    rewrite (on_consonant_plain text p _ i result Hm Hv (or_intror Hlt)).
    now rewrite Hk, Hpg.
  - rewrite (loop_body_consonant text i result p Hp).
    rewrite (on_consonant_plain text p _ i result Hm Hv Hn).
    now rewrite Hk, Hpg.
  - rewrite (loop_body_vowel text i result v Hv), Hvg. reflexivity.
  - now apply loop_body_pass.
Qed.

Lemma map_some_inj (a b : list str) : map Some a = map Some b -> a = b.
Proof.
  revert b. induction a as [|x a IH]; intros [|y b] H; try discriminate;
    [reflexivity|].
  cbn [map] in H. injection H as -> H. f_equal. auto.
Qed.

Lemma step_deterministic (text : str) (i i1 i2 : nat) (d1 d2 : list str) :
  step text i i1 d1 -> step text i i2 d2 -> i1 = i2 /\ d1 = d2.
Proof.
  intros H1 H2.
  pose proof (step_loop_body text i i1 d1 H1 []) as E1.
  pose proof (step_loop_body text i i2 d2 H2 []) as E2.
  rewrite E1 in E2. cbn [app] in E2. injection E2 as -> E2.
  split; [reflexivity | now apply map_some_inj].
Qed.

Lemma run_deterministic (text : str) (i : nat) (ds1 ds2 : list str) :
  run text i ds1 -> run text i ds2 -> ds1 = ds2.
Proof.
  intros H1. revert ds2.
  induction H1 as [i Hend | i i' d ds Hi Hs Hr IH]; intros ds2 H2.
  - destruct H2 as [|j j' d' ds' Hj]; [reflexivity | lia].
  - destruct H2 as [j Hend | j j' d' ds' Hj Hs' Hr']; [lia|].
    destruct (step_deterministic text j i' j' d d' Hs Hs') as [-> ->].
    f_equal. auto.
Qed.

Lemma run_exists (text : str) (i : nat) : exists ds, run text i ds.
Proof.
  destruct (while_loop_run text (length text - i) i [] (le_n _))
    as [ds [_ Hr]]. eauto.
Qed.

(** The loop returns the clusters of the run, appended to the buffer. *)
Lemma run_while_loop (text : str) (i : nat) (ds : list str) :
  run text i ds ->
  forall fuel result,
    length text - i <= fuel ->
    while_loop text fuel i result = Ok (result ++ map Some ds).
Proof.
  intros Hr fuel result Hf.
  destruct (while_loop_run text fuel i result Hf) as [ds' [Hw Hr']].
  now rewrite (run_deterministic text i ds ds' Hr Hr').
Qed.

(* ================================================================= *)
(** ** The scan depends on the remaining text only *)

Lemma scan_run (text : str) (ds : list str) :
  run text 0 ds -> scan text = Ok (concat ds).
Proof.
  intros Hr. unfold scan.
  rewrite (run_while_loop text 0 ds Hr (length text) []) by lia.
  cbn [bind app]. apply join_result_clusters.
Qed.

Lemma translate_scan (unicode_lower : str -> str) (text : str) :
  translate unicode_lower text = scan (rewrite unicode_lower text).
Proof. destruct text; reflexivity. Qed.

Section Shift.

Variables pre t : str.

Lemma matches_at_shift (pos : nat) (p : str) :
  matches_at (pre ++ t) (length pre + pos) p = matches_at t pos p.
Proof.
  unfold matches_at, slice_from. rewrite skipn_app.
  replace (length pre + pos - length pre) with pos by lia.
  rewrite skipn_all2 by lia. reflexivity.
Qed.

Lemma first_match_shift (pos : nat) (pats : list str) :
  first_match (pre ++ t) (length pre + pos) pats = first_match t pos pats.
Proof.
  unfold first_match. induction pats as [|p pats IH]; cbn [find];
    [reflexivity|].
  now rewrite matches_at_shift, IH.
Qed.

Lemma nth_error_shift (i : nat) :
  nth_error (pre ++ t) (length pre + i) = nth_error t i.
Proof.
  rewrite nth_error_app2 by lia. f_equal. lia.
Qed.

Lemma step_shift (i i' : nat) (d : list str) :
  step t i i' d -> step (pre ++ t) (length pre + i) (length pre + i') d.
Proof.
  assert (F : forall pos pats r,
             first_match t pos pats = r ->
             first_match (pre ++ t) (length pre + pos) pats = r).
  { intros pos pats r <-. apply first_match_shift. }
  assert (A : forall a b, length pre + a + b = length pre + (a + b))
    by (intros; lia).
  assert (L : length (pre ++ t) = length pre + length t)
    by apply length_app.
  destruct 1 as [Hsp | p g m gm Hp Hpg Hm Hmg | p g Hp Hpg Hm Hv
                | p g v gv Hp Hpg Hm Hv Hva Hvg | Hp Hend
                | p g q' Hp Hpg Hm Hv Hk | p g Hp Hpg Hm Hv Hn Hk
                | v gv Hv Hvg | c Hc Hsp Hk Hv];
    rewrite <- ?A.
  - apply step_space. now rewrite nth_error_shift.
  - apply (step_matra _ _ p g m gm);
      first [assumption | apply F; assumption
            | rewrite A; apply F; assumption].
  - apply (step_inherent _ _ p g);
      first [assumption | apply F; assumption
            | rewrite A; apply F; assumption].
  - apply (step_vowel_after _ _ p g v gv);
      first [assumption | apply F; assumption
            | rewrite A; apply F; assumption].
  - apply step_final_n; [apply F; assumption | lia].
  - apply (step_conjunct _ _ p g q');
      first [assumption | apply F; assumption
            | rewrite A; apply F; assumption].
  - apply (step_bare _ _ p g);
      first [assumption | apply F; assumption
            | rewrite A; apply F; assumption | idtac].
    destruct Hn as [Hn | Hn]; [left; exact Hn | right; lia].
  - apply (step_vowel _ _ v gv); [apply F; assumption | assumption].
  - apply step_pass;
      first [assumption | apply F; assumption
            | now rewrite nth_error_shift].
Qed.

Lemma run_shift (i : nat) (ds : list str) :
  run t i ds -> run (pre ++ t) (length pre + i) ds.
Proof.
  induction 1 as [i Hend | i i' d ds Hi Hs Hr IH].
  - constructor. rewrite length_app. lia.
  - econstructor; [rewrite length_app; lia | apply step_shift; eauto | exact IH].
Qed.

End Shift.

(* ================================================================= *)
(** ** A space ends what precedes it *)

Lemma patterns_spaceless (p : str) :
  In p consonant_patterns \/ In p vowel_patterns \/ In p matra_patterns ->
  spaceless p = true.
Proof.
  intros [H | [H | H]]; revert p H; apply forallb_In; reflexivity.
Qed.

Section Cut.

Variables u v1 v2 : str.

Lemma startswith_cut (w p : str) :
  spaceless p = true ->
  startswith (w ++ space :: v1) p = startswith (w ++ space :: v2) p.
Proof.
  revert w. induction p as [|a p IH]; intros w Hp; [reflexivity|].
  cbn [spaceless forallb] in Hp. apply andb_true_iff in Hp as [Ha Hp].
  destruct w as [|b w]; cbn [app startswith].
  - rewrite N.eqb_sym. apply negb_true_iff in Ha. now rewrite Ha.
  - f_equal. now apply IH.
Qed.

Lemma startswith_before_space (w v p : str) :
  spaceless p = true -> startswith (w ++ space :: v) p = true ->
  length p <= length w.
Proof.
  revert w. induction p as [|a p IH]; intros w Hp Hs; [cbn; lia|].
  cbn [spaceless forallb] in Hp. apply andb_true_iff in Hp as [Ha Hp].
  destruct w as [|b w]; cbn [app startswith] in Hs.
  - rewrite N.eqb_sym in Hs. apply negb_true_iff in Ha.
    rewrite Ha in Hs. discriminate.
  - apply andb_true_iff in Hs as [_ Hs]. cbn [length].
    specialize (IH w Hp Hs). lia.
Qed.

Lemma slice_before_space (v : str) (pos : nat) :
  pos <= length u ->
  slice_from (u ++ space :: v) pos = slice_from u pos ++ space :: v.
Proof.
  intros H. unfold slice_from. rewrite skipn_app.
  replace (pos - length u) with 0 by lia. reflexivity.
Qed.

Lemma matches_at_cut (pos : nat) (p : str) :
  pos <= length u -> spaceless p = true ->
  matches_at (u ++ space :: v1) pos p = matches_at (u ++ space :: v2) pos p.
Proof.
  intros Hpos Hp. unfold matches_at.
  rewrite !slice_before_space by exact Hpos. now apply startswith_cut.
Qed.

Lemma match_before_space (v : str) (pos : nat) (p : str) :
  pos <= length u -> spaceless p = true ->
  matches_at (u ++ space :: v) pos p = true ->
  pos + length p <= length u.
Proof.
  intros Hpos Hp. unfold matches_at.
  rewrite slice_before_space by exact Hpos. intros Hs.
  apply startswith_before_space in Hs; [|exact Hp].
  rewrite slice_length in Hs. lia.
Qed.

Lemma first_match_cut (pos : nat) (pats : list str) :
  pos <= length u -> forallb spaceless pats = true ->
  first_match (u ++ space :: v1) pos pats
  = first_match (u ++ space :: v2) pos pats.
Proof.
  intros Hpos. unfold first_match.
  induction pats as [|p pats IH]; intros Hp; [reflexivity|].
  cbn [forallb] in Hp. apply andb_true_iff in Hp as [Hp1 Hp2].
  cbn [find]. rewrite (matches_at_cut pos p Hpos Hp1), (IH Hp2). reflexivity.
Qed.

Lemma nth_error_cut (i : nat) :
  i <= length u ->
  nth_error (u ++ space :: v1) i = nth_error (u ++ space :: v2) i.
Proof.
  intros Hi. destruct (Nat.eq_dec i (length u)) as [-> | Hne].
  - rewrite !nth_error_app2 by lia. rewrite Nat.sub_diag. reflexivity.
  - rewrite !nth_error_app1 by lia. reflexivity.
Qed.

End Cut.

Section CutStep.

Variables u v1 v2 : str.

Lemma first_match_bound (v : str) (pos : nat) (pats : list str) (p : str) :
  pos <= length u -> forallb spaceless pats = true ->
  first_match (u ++ space :: v) pos pats = Some p ->
  pos + length p <= length u.
Proof.
  intros Hpos Hs Hp. apply first_match_some in Hp as [Hin Hm].
  eapply match_before_space; eauto. exact (forallb_In _ _ Hs _ Hin).
Qed.

(** Before a space, an iteration does not depend on what follows the
    space. *)
Lemma step_cut (i i' : nat) (d : list str) :
  i <= length u ->
  step (u ++ space :: v1) i i' d -> step (u ++ space :: v2) i i' d.
Proof.
  intros Hi.
  assert (F : forall pos pats r,
             pos <= length u -> forallb spaceless pats = true ->
             first_match (u ++ space :: v1) pos pats = r ->
             first_match (u ++ space :: v2) pos pats = r).
  { intros pos pats r Hpos Hs <-. symmetry. now apply first_match_cut. }
  assert (K : forall pos p,
             pos <= length u ->
             first_match (u ++ space :: v1) pos consonant_patterns = Some p ->
             pos + length p <= length u).
  { intros pos p Hpos. now apply first_match_bound. }
  assert (L : forall v, length (u ++ space :: v) = length u + S (length v)).
  { intros v. rewrite length_app. reflexivity. }
  destruct 1 as [Hsp | p g m gm Hp Hpg Hm Hmg | p g Hp Hpg Hm Hv
                | p g v gv Hp Hpg Hm Hv Hva Hvg | Hp Hend
                | p g q' Hp Hpg Hm Hv Hk | p g Hp Hpg Hm Hv Hn Hk
                | v gv Hv Hvg | c Hc Hsp Hk Hv].
  - apply step_space. now rewrite <- (nth_error_cut u v1 v2 i Hi).
  - pose proof (K i p Hi Hp) as B.
    apply (step_matra _ _ p g m gm);
      [apply (F _ consonant_patterns _ Hi eq_refl Hp) | exact Hpg
      | apply (F _ matra_patterns _ B eq_refl Hm) | exact Hmg].
  - pose proof (K i p Hi Hp) as B.
    apply (step_inherent _ _ p g);
      [apply (F _ consonant_patterns _ Hi eq_refl Hp) | exact Hpg
      | apply (F _ matra_patterns _ B eq_refl Hm) | apply (F _ vowel_patterns _ B eq_refl Hv)].
  - pose proof (K i p Hi Hp) as B.
    apply (step_vowel_after _ _ p g v gv);
      [apply (F _ consonant_patterns _ Hi eq_refl Hp) | exact Hpg
      | apply (F _ matra_patterns _ B eq_refl Hm) | apply (F _ vowel_patterns _ B eq_refl Hv)
      | exact Hva | exact Hvg].
  - pose proof (K i pat_n Hi Hp) as B. rewrite L in Hend. lia.
  - pose proof (K i p Hi Hp) as B.
    apply (step_conjunct _ _ p g q');
      [apply (F _ consonant_patterns _ Hi eq_refl Hp) | exact Hpg
      | apply (F _ matra_patterns _ B eq_refl Hm) | apply (F _ vowel_patterns _ B eq_refl Hv)
      | apply (F _ consonant_patterns _ B eq_refl Hk)].
  - pose proof (K i p Hi Hp) as B.
    apply (step_bare _ _ p g);
      [apply (F _ consonant_patterns _ Hi eq_refl Hp) | exact Hpg
      | apply (F _ matra_patterns _ B eq_refl Hm) | apply (F _ vowel_patterns _ B eq_refl Hv)
      | right; rewrite L; lia
      | apply (F _ consonant_patterns _ B eq_refl Hk)].
  - apply (step_vowel _ _ v gv);
      [apply (F _ vowel_patterns _ Hi eq_refl Hv) | exact Hvg].
  - apply step_pass;
      [now rewrite <- (nth_error_cut u v1 v2 i Hi) | exact Hsp
      | apply (F _ consonant_patterns _ Hi eq_refl Hk) | apply (F _ vowel_patterns _ Hi eq_refl Hv)].
Qed.

End CutStep.

(** The run over [u], a space and [v] is the run over [u] and the space,
    followed by the run over [v]. *)
Lemma run_cut (u v : str) (i : nat) (ds dv : list str) :
  run (u ++ [space]) i ds -> i <= length u -> run v 0 dv ->
  run (u ++ space :: v) i (ds ++ dv).
Proof.
  intros Hr. remember (u ++ [space]) as t eqn:Et.
  induction Hr as [i Hend | i i' d ds Hi Hs Hr IH]; intros Hle Hv; subst t.
  - rewrite length_app in Hend. cbn in Hend. lia.
  - pose proof (step_progress _ _ _ _ Hs) as [Hlt Hbound].
    rewrite length_app in Hbound. cbn [length] in Hbound.
    rewrite <- app_assoc. apply run_step with (i' := i').
    + rewrite length_app. cbn [length]. lia.
    + now apply (step_cut u [] v).
    + destruct (le_lt_dec i' (length u)) as [Hin | Hout].
      * now apply IH.
      * assert (i' = length (u ++ [space]) + 0)
          by (rewrite length_app; cbn [length]; lia).
        destruct Hr as [j Hend | j j' d' ds' Hj]; [|rewrite length_app in Hj; cbn [length] in Hj; lia].
        cbn [app]. subst j.
        replace (u ++ space :: v) with ((u ++ [space]) ++ v)
          by now rewrite <- app_assoc.
        now apply run_shift.
Qed.

(* ================================================================= *)
(** ** Properties of the scanner beyond the stated claims *)

Lemma rewrite_no_alias (unicode_lower : str -> str) (text : str) :
  first_alias unicode_lower text = None -> rewrite unicode_lower text = text.
Proof.
  intros H. unfold rewrite. rewrite special_cases_loop_spec.
  unfold first_alias in H. now rewrite H.
Qed.

Lemma nodupb_NoDup (l : list str) : nodupb l = true -> NoDup l.
Proof.
  induction l as [|x l IH]; cbn [nodupb]; intros H; constructor.
  - apply andb_true_iff in H as [H _]. intros Hin.
    assert (E : existsb (str_eqb x) l = true).
    { apply existsb_exists. exists x. split; [exact Hin|].
      now apply str_eqb_eq. }
    rewrite E in H. discriminate.
  - apply andb_true_iff in H as [_ H]. auto.
Qed.

(** X1: the index builder of [__init__], on every list of keys: the
    index is a rearrangement of the keys, no pattern stands before a
    longer one, and patterns of one length keep their declaration order;
    the three indexes are built this way from tables whose keys are
    unique. *)
Theorem pattern_index_spec :
  (forall l : list str,
      Permutation l (sorted_by_len_desc l)
      /\ StronglySorted len_ge (sorted_by_len_desc l)
      /\ forall n, of_length n (sorted_by_len_desc l) = of_length n l)
  /\ vowel_patterns = sorted_by_len_desc (keys VOWELS)
  /\ consonant_patterns = sorted_by_len_desc (keys CONSONANTS)
  /\ matra_patterns = sorted_by_len_desc (keys MATRAS)
  /\ NoDup (keys VOWELS) /\ NoDup (keys CONSONANTS)
  /\ NoDup (keys MATRAS) /\ NoDup (keys SPECIAL).
Proof.
  split.
  { intros l. split; [apply sorted_by_len_desc_perm|].
    split; [apply sorted_by_len_desc_sorted|].
    intros n. apply sorted_by_len_desc_stable. }
  split; [reflexivity|]. split; [reflexivity|]. split; [reflexivity|].
  repeat split; apply nodupb_NoDup; reflexivity.
Qed.

(** X2: the special loop of lines 224-229 never emits: where the vowel
    loop has found nothing, no special pattern matches either, so an
    iteration that reaches the special loop ends in the verbatim copy. *)
Theorem special_loop_dead (text : str) (i : nat) (result : buffer) :
  vowel_loop text vowel_patterns i result = None ->
  special_loop text special_keys i result = Ok None
  /\ forall c, nth_error text i = Some c -> c <> space ->
               consonant_loop text consonant_patterns i result = Ok None ->
               loop_body text i result = Ok (i + 1, result ++ [Some [c]]).
Proof.
  intros Hv. rewrite vowel_loop_spec in Hv.
  destruct (first_match text i vowel_patterns) as [v|] eqn:Ev;
    [discriminate|].
  split; [now apply special_loop_unreached|].
  intros c Hc Hsp Hk. rewrite consonant_loop_spec in Hk.
  apply loop_body_pass; [exact Hc | exact Hsp | | exact Ev].
  destruct (first_match text i consonant_patterns) as [p|]; [|reflexivity].
  now destruct (on_consonant text p (dict_get CONSONANTS p) i result).
Qed.

Lemma special_loop_dead_witness :
  special_loop (U "k5") special_keys 1 [] = Ok None
  /\ loop_body (U "k5") 1 [] = Ok (2, [Some (U "5")]).
Proof.
  destruct (special_loop_dead (U "k5") 1 []) as [H1 H2]; [reflexivity|].
  split; [exact H1|].
  apply (H2 53%N); [reflexivity | discriminate | reflexivity].
Defined.

(** X3: the conjunct mark of lines 177-200 is appended exactly when a
    consonant pattern matches at [next_pos]; the test for a vowel or
    special pattern there never holds it back, and nothing is appended at
    the end of the text or before a space. *)
Theorem conjunct_mark_iff (text : str) (next_pos : nat) (result : buffer) :
  (existsb (matches_at text next_pos) consonant_patterns = true ->
   conjunct_mark text next_pos result = Ok (result ++ [Some halant])
   /\ next_pos < length text /\ nth_error text next_pos <> Some space)
  /\ (existsb (matches_at text next_pos) consonant_patterns = false ->
      conjunct_mark text next_pos result = Ok result).
Proof.
  rewrite conjunct_mark_spec. split; intros H.
  - destruct (first_match text next_pos consonant_patterns) as [q|] eqn:Eq.
    + split; [reflexivity|].
      apply first_match_some in Eq as [Hin Hm].
      pose proof (proper_match_bound text next_pos q
                    (consonant_proper q Hin) Hm).
      destruct (proper_match_head text next_pos q (consonant_proper q Hin) Hm)
        as [c [Hc Hsp]].
      split; [lia | congruence].
    + apply first_match_none in Eq. congruence.
  - apply first_match_none in H. now rewrite H.
Qed.

Lemma conjunct_mark_iff_witness :
  conjunct_mark (U "st") 1 [Some (U "स")] = Ok [Some (U "स"); Some (U "्")]
  /\ conjunct_mark (U "s ") 1 [Some (U "स")] = Ok [Some (U "स")].
Proof.
  split.
  - destruct (conjunct_mark_iff (U "st") 1 [Some (U "स")]) as [H _].
    destruct H as [H _]; [reflexivity | exact H].
  - destruct (conjunct_mark_iff (U "s ") 1 [Some (U "स")]) as [_ H].
    apply H. reflexivity.
Defined.

(** X4: an iteration only appends to the buffer, and what it appends
    does not depend on what the buffer holds; so the clusters of earlier
    iterations are never changed, and the replacement of the last
    element touches only the cluster appended in the same iteration. *)
Theorem buffer_append_only (text : str) (i : nat) :
  i < length text ->
  exists i' d ds,
    d <> []
    /\ (forall result,
           loop_body text i result = Ok (i', result ++ map Some d))
    /\ (forall fuel result,
           length text - i <= fuel ->
           while_loop text fuel i result = Ok (result ++ map Some ds)).
Proof.
  intros Hi.
  destruct (loop_body_step text i [] Hi) as [i' [d [_ Hs]]].
  destruct (run_exists text i) as [ds Hr].
  exists i', d, ds. split; [destruct Hs; discriminate|].
  split; [now apply step_loop_body|].
  intros fuel result Hf. now apply run_while_loop.
Qed.

Lemma buffer_append_only_witness :
  exists i' d ds,
    d <> []
    /\ (forall result,
           loop_body (U "main") 3 result = Ok (i', result ++ map Some d))
    /\ (forall fuel result,
           length (U "main") - 3 <= fuel ->
           while_loop (U "main") fuel 3 result = Ok (result ++ map Some ds)).
Proof. apply (buffer_append_only (U "main") 3). cbn. lia. Defined.

(** X5: the scan from a cursor depends only on the text from the cursor
    on: behind any prefix, the loop appends the clusters of the scan of
    the remaining text alone. *)
Theorem scan_of_suffix (pre t : str) :
  exists ds,
    scan t = Ok (concat ds)
    /\ forall fuel result,
        length t <= fuel ->
        while_loop (pre ++ t) fuel (length pre) result
        = Ok (result ++ map Some ds).
Proof.
  destruct (run_exists t 0) as [ds Hr]. exists ds.
  split; [now apply scan_run|].
  intros fuel result Hf.
  apply run_while_loop; [|rewrite length_app; lia].
  rewrite <- (Nat.add_0_r (length pre)). now apply run_shift.
Qed.

(** X6: a space separates: the scan of [u], a space and [v] is the scan
    of [u] with the space, followed by the scan of [v]; and so is the
    translation, where the rewriter finds no alias. *)
Theorem scan_splits_at_space (u v : str) :
  exists a b,
    scan (u ++ [space]) = Ok a /\ scan v = Ok b
    /\ scan (u ++ space :: v) = Ok (a ++ b)
    /\ forall unicode_lower,
        first_alias unicode_lower (u ++ space :: v) = None ->
        first_alias unicode_lower (u ++ [space]) = None ->
        first_alias unicode_lower v = None ->
        translate unicode_lower (u ++ [space]) = Ok a
        /\ translate unicode_lower v = Ok b
        /\ translate unicode_lower (u ++ space :: v) = Ok (a ++ b).
Proof.
  destruct (run_exists (u ++ [space]) 0) as [ds Hu].
  destruct (run_exists v 0) as [dv Hv].
  pose proof (run_cut u v 0 ds dv Hu (Nat.le_0_l _) Hv) as Huv.
  exists (concat ds), (concat dv).
  pose proof (scan_run _ _ Hu) as Su. pose proof (scan_run _ _ Hv) as Sv.
  pose proof (scan_run _ _ Huv) as Suv. rewrite concat_app in Suv.
  split; [exact Su|]. split; [exact Sv|]. split; [exact Suv|].
  intros ul H1 H2 H3. rewrite !translate_scan.
  rewrite (rewrite_no_alias ul _ H1), (rewrite_no_alias ul _ H2),
    (rewrite_no_alias ul _ H3).
  auto.
Qed.

Lemma scan_splits_at_space_witness :
  translate (fun s => s) (U "main raam")
  = Ok (U "मैन " ++ U "राम").
Proof.
  destruct (scan_splits_at_space (U "main") (U "raam"))
    as [a [b [Ha [Hb [_ H]]]]].
  destruct (H (fun s => s) eq_refl eq_refl eq_refl) as [_ [_ H']].
  assert (Ea : a = U "मैन ")
    by (vm_compute in Ha; injection Ha as <-; reflexivity).
  assert (Eb : b = U "राम")
    by (vm_compute in Hb; injection Hb as <-; reflexivity).
  subst a b. exact H'.
Defined.

Lemma slice_cons (text : str) (i : nat) (c : codepoint) :
  nth_error text i = Some c ->
  slice_from text i = c :: slice_from text (i + 1).
Proof.
  unfold slice_from. revert i.
  induction text as [|a text IH]; intros [|i] H; try discriminate.
  - cbn in H. injection H as ->. reflexivity.
  - cbn [skipn Nat.add]. now apply IH.
Qed.

Lemma slice_match (text : str) (i : nat) (p : str) :
  matches_at text i p = true ->
  slice_from text i = p ++ slice_from text (i + length p).
Proof.
  unfold matches_at. rewrite startswith_iff. intros [r Hr].
  rewrite <- slice_slice, Hr. unfold slice_from.
  rewrite skipn_app, Nat.sub_diag, skipn_all. reflexivity.
Qed.

Lemma first_match_at_space (text : str) (pos : nat) (pats : list str) :
  nth_error text pos = Some space ->
  forallb proper_pattern pats = true ->
  first_match text pos pats = None.
Proof.
  intros Hsp Hp.
  destruct (first_match text pos pats) as [p|] eqn:E; [|reflexivity].
  apply first_match_some in E as [Hin Hm].
  destruct (proper_match_head text pos p (forallb_In _ _ Hp _ Hin) Hm)
    as [c [Hc Hne]]. congruence.
Qed.

(** X7: the implicit vowel: after a consonant, an "a" that does not begin
    "aa", "ai" or "au" is consumed without any sign; the iteration leaves
    only the glyph of the consonant. *)
Theorem inherent_a_elided (text : str) (i : nat) (result : buffer) (p : str) :
  first_match text i consonant_patterns = Some p ->
  nth_error text (i + length p) = Some 97%N ->
  (forall c, nth_error text (i + length p + 1) = Some c ->
             c <> 97%N /\ c <> 105%N /\ c <> 117%N) ->
  loop_body text i result
  = Ok (i + length p + 1, result ++ [dict_get CONSONANTS p]).
Proof.
  intros Hp Ha Hnext.
  rewrite (loop_body_consonant text i result p Hp).
  pose proof (slice_cons text _ _ Ha) as Es.
  assert (Er : forall pats,
             first_match text (i + length p) pats
             = find (startswith (97%N :: slice_from text (i + length p + 1)))
                    pats).
  { intros pats. unfold first_match, matches_at. now rewrite Es. }
  pose proof (nth_error_slice text (i + length p + 1)) as Eh.
  destruct (slice_from text (i + length p + 1)) as [|c rest].
  - rewrite (on_consonant_vowel text p _ i result pat_a);
      [reflexivity | now rewrite Er | now rewrite Er].
  - destruct (Hnext c Eh) as [H1 [H2 H3]].
    apply N.eqb_neq in H1, H2, H3.
    rewrite (on_consonant_vowel text p _ i result pat_a);
      [reflexivity | |];
      rewrite Er; cbn; now rewrite H1, ?H2, ?H3.
Qed.

Lemma inherent_a_elided_witness :
  loop_body (U "kamala") 0 [] = Ok (2, [Some (U "क")]).
Proof.
  apply (inherent_a_elided (U "kamala") 0 [] (U "k")).
  - reflexivity.
  - reflexivity.
  - intros c H. injection H as <-. repeat split; discriminate.
Defined.

(** X8: a consonant before a space, or a consonant other than "n" at the
    end of the text, leaves its bare glyph: no halant and no sign; this
    holds for "n" before a space too, which becomes an anusvara only at
    the very end of the text. *)
Theorem consonant_at_word_end (text : str) (i : nat) (result : buffer)
        (p : str) :
  first_match text i consonant_patterns = Some p ->
  nth_error text (i + length p) = Some space
  \/ (length text <= i + length p /\ p <> pat_n) ->
  loop_body text i result
  = Ok (i + length p, result ++ [dict_get CONSONANTS p]).
Proof.
  intros Hp Hend.
  rewrite (loop_body_consonant text i result p Hp).
  destruct Hend as [Hsp | [Hlen Hn]].
  - rewrite on_consonant_plain.
    + now rewrite (first_match_at_space text _ consonant_patterns Hsp eq_refl).
    + exact (first_match_at_space text _ matra_patterns Hsp eq_refl).
    + exact (first_match_at_space text _ vowel_patterns Hsp eq_refl).
    + right. apply nth_error_Some. congruence.
  - rewrite on_consonant_plain.
    + now rewrite (first_match_end text consonant_patterns eq_refl _ Hlen).
    + exact (first_match_end text matra_patterns eq_refl _ Hlen).
    + exact (first_match_end text vowel_patterns eq_refl _ Hlen).
    + now left.
Qed.

Lemma consonant_at_word_end_witness :
  loop_body (U "main raam") 3 [] = Ok (4, [Some (U "न")])
  /\ loop_body (U "main raam") 8 [] = Ok (9, [Some (U "म")]).
Proof.
  split.
  - apply (consonant_at_word_end (U "main raam") 3 [] (U "n"));
      [reflexivity | left; reflexivity].
  - apply (consonant_at_word_end (U "main raam") 8 [] (U "m"));
      [reflexivity | right; split; [cbn; lia | discriminate]].
Defined.

(** X9: after a consonant, a vowel that has a dependent sign is written
    as that sign: where a key of [MATRAS] matches behind the consonant,
    the iteration leaves the glyph of the consonant and the sign of the
    longest matching key, and consumes both. *)
Theorem matra_after_consonant (text : str) (i : nat) (result : buffer)
        (p v : str) :
  first_match text i consonant_patterns = Some p ->
  In v (keys MATRAS) ->
  matches_at text (i + length p) v = true ->
  In v (keys VOWELS)
  /\ exists m,
      In m (keys MATRAS) /\ length v <= length m
      /\ matches_at text (i + length p) m = true
      /\ loop_body text i result
         = Ok (i + length p + length m,
               result ++ [dict_get CONSONANTS p; dict_get MATRAS m]).
Proof.
  intros Hp Hv Hm. split.
  { assert (E : existsb (str_eqb v) (keys VOWELS) = true).
    { clear Hm. revert v Hv.
      apply (forallb_In (fun v => existsb (str_eqb v) (keys VOWELS))).
      reflexivity. }
    apply existsb_exists in E as [q [Hq E]]. apply str_eqb_eq in E.
    now subst. }
  destruct (first_match_covers text (i + length p) MATRAS matra_patterns v
              matra_patterns_eq Hv Hm) as [m [Em [Hin [Hmm Hlen]]]].
  exists m. split.
  { eapply Permutation_in; [symmetry; apply sorted_by_len_desc_perm|].
    exact Hin. }
  split; [exact Hlen|]. split; [exact Hmm|].
  rewrite (loop_body_consonant text i result p Hp).
  now apply on_consonant_matra.
Qed.

Lemma matra_after_consonant_witness :
  exists m,
    length (U "i") <= length m
    /\ loop_body (U "kii") 0 []
       = Ok (0 + length (U "k") + length m,
             [] ++ [dict_get CONSONANTS (U "k"); dict_get MATRAS m]).
Proof.
  destruct (matra_after_consonant (U "kii") 0 [] (U "k") (U "i"))
    as [_ [m [_ [Hl [_ H]]]]].
  - reflexivity.
  - vm_compute. tauto.
  - reflexivity.
  - exists m. split; [exact Hl | exact H].
Defined.

(* ================================================================= *)
(** ** Size and spaces of the output *)

Lemma glyph_sizes (d : dict) (k v : str) :
  dict_get d k = Some v ->
  (d = CONSONANTS -> length v <= 3)
  /\ (d = VOWELS \/ d = MATRAS -> length v <= 1).
Proof.
  intros Hg. split.
  - intros ->. apply Nat.leb_le.
    apply (dict_values (fun v => length v <=? 3) CONSONANTS k v eq_refl Hg).
  - intros [-> | ->]; apply Nat.leb_le.
    + apply (dict_values (fun v => length v <=? 1) VOWELS k v eq_refl Hg).
    + apply (dict_values (fun v => length v <=? 1) MATRAS k v eq_refl Hg).
Qed.

Lemma step_size (t : str) (i i' : nat) (d : list str) :
  step t i i' d -> 1 <= length (concat d) <= 4 * (i' - i).
Proof.
  assert (K : forall k v, dict_get CONSONANTS k = Some v ->
                          1 <= length v <= 3).
  { intros k v H. split; [|now apply (glyph_sizes CONSONANTS k v H)].
    apply consonant_glyph_proper in H. now apply proper_pattern_length. }
  assert (V : forall k v, dict_get VOWELS k = Some v -> length v <= 1).
  { intros k v H. apply (glyph_sizes VOWELS k v H). now left. }
  assert (M : forall k v, dict_get MATRAS k = Some v -> length v <= 1).
  { intros k v H. apply (glyph_sizes MATRAS k v H). now right. }
  assert (V1 : forall k v, dict_get VOWELS k = Some v -> 1 <= length v).
  { intros k v H.
    assert (E : proper_pattern v = true)
      by apply (dict_values proper_pattern VOWELS k v eq_refl H).
    now apply proper_pattern_length. }
  assert (P : forall pos p,
             first_match t pos consonant_patterns = Some p -> 1 <= length p).
  { intros pos p H. apply first_match_some in H as [Hin _].
    apply proper_pattern_length. now apply consonant_proper. }
  assert (Q : forall pos p,
             first_match t pos vowel_patterns = Some p -> 1 <= length p).
  { intros pos p H. apply first_match_some in H as [Hin _].
    apply proper_pattern_length. now apply vowel_proper. }
  destruct 1 as [Hsp | p g m gm Hp Hpg Hm Hmg | p g Hp Hpg Hm Hv
                | p g v gv Hp Hpg Hm Hv Hva Hvg | Hp Hend
                | p g q' Hp Hpg Hm Hv Hk | p g Hp Hpg Hm Hv Hn Hk
                | v gv Hv Hvg | c Hc Hsp Hk Hv];
    cbn [concat]; rewrite ?app_nil_r, ?length_app;
    repeat match goal with
      | H : first_match t _ vowel_patterns = Some _ |- _ => apply Q in H
      | H : dict_get CONSONANTS _ = Some _ |- _ => apply K in H
      | H : dict_get VOWELS _ = Some _ |- _ =>
          pose proof (V1 _ _ H); apply V in H
      | H : dict_get MATRAS _ = Some _ |- _ => apply M in H
      | H : first_match t _ consonant_patterns = Some _ |- _ => apply P in H
      end;
    change (length halant) with 1; change (length anusvara) with 1;
    change (length pat_n) with 1 in *; cbn [length]; lia.
Qed.

Lemma run_size (t : str) (i : nat) (ds : list str) :
  run t i ds ->
  length (concat ds) <= 4 * (length t - i)
  /\ (i < length t -> 1 <= length (concat ds)).
Proof.
  induction 1 as [i Hend | i i' d ds Hi Hs Hr [IH _]].
  - cbn. split; lia.
  - rewrite concat_app, length_app.
    pose proof (step_size t i i' d Hs). pose proof (step_progress t i i' d Hs).
    split; lia.
Qed.

(** X10: the returned string has at most four code points for every
    character of the rewritten text, and it is empty only when that text
    is. *)
Theorem output_length_bound (unicode_lower : str -> str) (text out : str) :
  translate unicode_lower text = Ok out ->
  length out <= 4 * length (rewrite unicode_lower text)
  /\ (out = [] <-> rewrite unicode_lower text = []).
Proof.
  intros H. destruct (translate_run unicode_lower text) as [ds [Ht Hr]].
  rewrite Ht in H. injection H as <-.
  destruct (run_size _ _ _ Hr) as [H1 H2]. rewrite Nat.sub_0_r in H1.
  split; [exact H1|]. split.
  - intros E. destruct (rewrite unicode_lower text) as [|c r]; [reflexivity|].
    rewrite E in H2. cbn in H2. lia.
  - intros E. rewrite E in H1. cbn in H1.
    destruct (concat ds); [reflexivity | cbn in H1; lia].
Qed.

Lemma output_length_bound_witness :
  length (U "क्ष्क") <= 4 * length (rewrite (fun s => s) (U "xk")).
Proof.
  apply (output_length_bound (fun s => s) (U "xk") (U "क्ष्क")).
  reflexivity.
Defined.

Lemma count_spaceless (p : str) :
  spaceless p = true -> count_spaces p = 0.
Proof.
  unfold count_spaces. induction p as [|c p IH]; [reflexivity|].
  cbn [spaceless forallb]. intros H. apply andb_true_iff in H as [Hc Hp].
  apply negb_true_iff, N.eqb_neq in Hc.
  rewrite count_occ_cons_neq by exact Hc. now apply IH.
Qed.

Lemma count_spaces_app (a b : str) :
  count_spaces (a ++ b) = count_spaces a + count_spaces b.
Proof. apply count_occ_app. Qed.

Lemma glyph_spaceless (d : dict) (k v : str) :
  d = CONSONANTS \/ d = VOWELS \/ d = MATRAS ->
  dict_get d k = Some v -> count_spaces v = 0.
Proof.
  intros Hd Hg. apply count_spaceless.
  apply (dict_values spaceless d k v); [|exact Hg].
  destruct Hd as [-> | [-> | ->]]; reflexivity.
Qed.

Lemma step_spaces (t : str) (i i' : nat) (d : list str) :
  step t i i' d ->
  exists consumed,
    slice_from t i = consumed ++ slice_from t i'
    /\ count_spaces consumed
       = count_spaces (concat d).
Proof.
  assert (S1 : forall pos pats p,
             first_match t pos pats = Some p ->
             slice_from t pos = p ++ slice_from t (pos + length p)).
  { intros pos pats p H. apply first_match_some in H as [_ H].
    now apply slice_match. }
  assert (C : forall pos p, first_match t pos consonant_patterns = Some p ->
                            count_spaces p = 0).
  { intros pos p H. apply first_match_some in H as [H _].
    apply count_spaceless, patterns_spaceless. now left. }
  assert (V : forall pos p, first_match t pos vowel_patterns = Some p ->
                            count_spaces p = 0).
  { intros pos p H. apply first_match_some in H as [H _].
    apply count_spaceless, patterns_spaceless. right. now left. }
  assert (M : forall pos p, first_match t pos matra_patterns = Some p ->
                            count_spaces p = 0).
  { intros pos p H. apply first_match_some in H as [H _].
    apply count_spaceless, patterns_spaceless. right. now right. }
  assert (G : forall d k v, d = CONSONANTS \/ d = VOWELS \/ d = MATRAS ->
                            dict_get d k = Some v ->
                            count_spaces v = 0)
    by exact glyph_spaceless.
  destruct 1 as [Hsp | p g m gm Hp Hpg Hm Hmg | p g Hp Hpg Hm Hv
                | p g v gv Hp Hpg Hm Hv Hva Hvg | Hp Hend
                | p g q' Hp Hpg Hm Hv Hk | p g Hp Hpg Hm Hv Hn Hk
                | v gv Hv Hvg | c Hc Hsp Hk Hv];
    cbn [concat]; rewrite ?app_nil_r.
  - exists [space]. split; [now apply slice_cons | reflexivity].
  - exists (p ++ m). split.
    + rewrite (S1 _ _ _ Hp), (S1 _ _ _ Hm), app_assoc. reflexivity.
    + rewrite !count_spaces_app, (C _ _ Hp), (M _ _ Hm).
      rewrite (G CONSONANTS p g), (G MATRAS m gm); auto.
  - exists (p ++ pat_a). split.
    + rewrite (S1 _ _ _ Hp), (S1 _ _ _ Hv), app_assoc. reflexivity.
    + rewrite !count_spaces_app, (C _ _ Hp), (G CONSONANTS p g); auto.
  - exists (p ++ v). split.
    + rewrite (S1 _ _ _ Hp), (S1 _ _ _ Hv), app_assoc. reflexivity.
    + rewrite !count_spaces_app, (C _ _ Hp), (V _ _ Hv).
      rewrite (G CONSONANTS p g), (G VOWELS v gv); auto.
  - exists pat_n. split; [apply (S1 _ _ _ Hp) | reflexivity].
  - exists p. split; [apply (S1 _ _ _ Hp)|].
    rewrite !count_spaces_app, (C _ _ Hp), (G CONSONANTS p g); auto.
  - exists p. split; [apply (S1 _ _ _ Hp)|].
    rewrite (C _ _ Hp), (G CONSONANTS p g); auto.
  - exists v. split; [apply (S1 _ _ _ Hv)|].
    rewrite (V _ _ Hv), (G VOWELS v gv); auto.
  - exists [c]. split; [now apply slice_cons | reflexivity].
Qed.

Lemma run_spaces (t : str) (i : nat) (ds : list str) :
  run t i ds ->
  count_spaces (concat ds)
  = count_spaces (slice_from t i).
Proof.
  induction 1 as [i Hend | i i' d ds Hi Hs Hr IH].
  - unfold slice_from. now rewrite skipn_all2.
  - destruct (step_spaces t i i' d Hs) as [consumed [E1 E2]].
    now rewrite E1, concat_app, !count_spaces_app, IH, E2.
Qed.

(** X11: the scanner keeps the spaces: the returned string has exactly as
    many ASCII spaces as the rewritten text; a space is never consumed by
    a pattern and no glyph holds one. *)
Theorem spaces_preserved (unicode_lower : str -> str) (text out : str) :
  translate unicode_lower text = Ok out ->
  count_spaces out
  = count_spaces (rewrite unicode_lower text).
Proof.
  intros H. destruct (translate_run unicode_lower text) as [ds [Ht Hr]].
  rewrite Ht in H. injection H as <-. apply (run_spaces _ _ _ Hr).
Qed.

Lemma spaces_preserved_witness :
  count_spaces (U "मैन  राम")
  = count_spaces (rewrite (fun s => s) (U "main  raam")).
Proof.
  apply (spaces_preserved (fun s => s) (U "main  raam") (U "मैन  राम")).
  reflexivity.
Defined.

(* ================================================================= *)
(** ** Aliases in any letter case *)

Lemma split_word (w : str) : is_word w -> split w = [w].
Proof.
  intros [Hne Hw]. unfold split.
  pose proof (split_from_word w [] [] Hw) as E.
  rewrite app_nil_r in E. rewrite E. cbn [app split_from].
  destruct w; [contradiction | reflexivity].
Qed.

Lemma rewrite_alias_word (unicode_lower : str -> str) (w alias e : str) :
  is_word w ->
  lower unicode_lower w = alias ->
  In (alias, e) special_cases ->
  rewrite unicode_lower w = e.
Proof.
  intros Hw Hl Hin. unfold rewrite. rewrite special_cases_loop_spec, Hl.
  assert (E : find (fun kv => contains alias (fst kv)) special_cases
              = Some (alias, e)).
  { unfold special_cases in Hin. cbn [In] in Hin.
    destruct Hin as [X | [X | [X | [X | []]]]];
      injection X as <- <-; reflexivity. }
  rewrite E, (split_word w Hw). cbn [map join].
  unfold replace_word. rewrite Hl.
  assert (R : str_eqb alias alias = true) by now apply str_eqb_eq.
  now rewrite R.
Qed.

(** X12: an alias is recognised in any letter case: a word whose lower
    case is an alias is rewritten to the expansion of the alias, and is
    translated like the alias written in lower case. *)
Theorem alias_any_case (unicode_lower : str -> str) (w alias e : str) :
  is_word w ->
  lower unicode_lower w = alias ->
  dict_get special_cases alias = Some e ->
  rewrite unicode_lower w = e
  /\ translate unicode_lower w = translate unicode_lower alias.
Proof.
  intros Hw Hl Hg. apply dict_get_in in Hg.
  pose proof (rewrite_alias_word unicode_lower w alias e Hw Hl Hg) as E.
  split; [exact E|].
  rewrite !translate_scan, E. f_equal. symmetry.
  apply (rewrite_alias_word unicode_lower alias alias e); [| |exact Hg];
    unfold special_cases in Hg; cbn [In] in Hg;
    destruct Hg as [X | [X | [X | [X | []]]]];
    injection X as <- <-; try reflexivity;
    (split; [discriminate | reflexivity]).
Qed.

Lemma alias_any_case_witness :
  rewrite (fun s => s) (U "HiNdI") = U "hiMdii"
  /\ translate (fun s => s) (U "HiNdI") = translate (fun s => s) (U "hindi").
Proof.
  apply (alias_any_case (fun s => s) (U "HiNdI") (U "hindi") (U "hiMdii")).
  - split; [discriminate | reflexivity].
  - reflexivity.
  - reflexivity.
Defined.

(* ================================================================= *)
(** ** The interactive loop and the test table *)

Section CallerFacts.

Variable unicode_lower : str -> str.



Lemma repl_cut (pre : list event) (e : event) (rest : list event) (out : str) :
  match e with
  | Line s => is_quit unicode_lower (strip s) = true
  | Interrupt => True
  end ->
  repl unicode_lower (pre ++ e :: rest) out
  = repl unicode_lower (pre ++ [e]) out.
Proof.
  intros He. revert out.
  induction pre as [|[s|] pre IH]; intros out; cbn [app repl].
  - destruct e as [s|]; [now rewrite He | reflexivity].
  - destruct (is_quit unicode_lower (strip s)); [reflexivity|].
    destruct (strip s); [apply IH|].
    destruct (translate unicode_lower (c :: s0)); cbn [bind];
      [apply IH | reflexivity | reflexivity].
  - reflexivity.
Qed.

End CallerFacts.


(** X14: the interactive loop stops at the first quit command ("quit",
    "exit" or "q" in any letter case, white space around it ignored) and
    at Ctrl+C: what is entered after it changes nothing. *)
Theorem main_stops_at_quit (unicode_lower : str -> str)
        (pre : list event) (e : event) (rest : list event) :
  match e with
  | Line s => is_quit unicode_lower (strip s) = true
  | Interrupt => True
  end ->
  main unicode_lower (pre ++ e :: rest) = main unicode_lower (pre ++ [e]).
Proof. intros He. now apply repl_cut. Qed.

Lemma main_stops_at_quit_witness :
  main (fun s => s) ([Line (U "raam")] ++ Line (U "  Quit ") :: [Line (U "k")])
  = main (fun s => s) ([Line (U "raam")] ++ [Line (U "  Quit ")]).
Proof.
  apply (main_stops_at_quit (fun s => s) [Line (U "raam")]
           (Line (U "  Quit ")) [Line (U "k")]).
  reflexivity.
Defined.

(** X15: the test table of [test_translator.py] passes: thirteen cases
    passed, none failed. *)
Theorem test_translator_passes (unicode_lower : str -> str) :
  test_translator unicode_lower = Ok (13, 0).
Proof. vm_compute. reflexivity. Qed.

(* ================================================================= *)
(** ** Text outside the scheme *)

Lemma inert_no_match (t : str) (i : nat) (c : codepoint) (pats : list str) :
  nth_error t i = Some c -> inert c = true ->
  incl pats (consonant_patterns ++ vowel_patterns) ->
  forallb proper_pattern pats = true ->
  first_match t i pats = None.
Proof.
  intros Hc Hin Hincl Hp.
  destruct (first_match t i pats) as [p|] eqn:E; [|reflexivity].
  apply first_match_some in E as [Hpin Hm].
  pose proof (forallb_In _ _ Hp _ Hpin) as Pp.
  destruct p as [|a p]; [discriminate|].
  apply matches_at_head in Hm. assert (a = c) by congruence. subst a.
  unfold inert in Hin. apply negb_true_iff in Hin.
  assert (E : existsb (fun p => match p with
                                | a :: _ => (a =? c)%N
                                | [] => false
                                end)
                      (consonant_patterns ++ vowel_patterns) = true).
  { apply existsb_exists. exists (c :: p). split; [now apply Hincl|].
    apply N.eqb_refl. }
  rewrite E in Hin. discriminate.
Qed.

Lemma run_inert (t : str) :
  Forall (fun c => inert c = true) t ->
  forall n i, length t - i <= n ->
              run t i (map (fun c => [c]) (slice_from t i)).
Proof.
  intros Hall. induction n as [|n IH]; intros i Hn.
  - unfold slice_from. rewrite skipn_all2 by lia. constructor. lia.
  - destruct (le_lt_dec (length t) i) as [Hend | Hi].
    + unfold slice_from. rewrite skipn_all2 by lia. now constructor.
    + destruct (nth_error t i) as [c|] eqn:Ec;
        [|apply nth_error_None in Ec; lia].
      rewrite (slice_cons t i c Ec). cbn [map].
      change ([c] :: map (fun c => [c]) (slice_from t (i + 1)))
        with ([[c]] ++ map (fun c => [c]) (slice_from t (i + 1))).
      apply run_step with (i' := i + 1); [exact Hi | | apply IH; lia].
      destruct (N.eq_dec c space) as [-> | Hsp]; [now apply step_space|].
      assert (Hc : inert c = true).
      { rewrite Forall_forall in Hall. apply Hall.
        eapply nth_error_In; eauto. }
      apply step_pass; [exact Ec | exact Hsp | |].
      * apply (inert_no_match t i c consonant_patterns Ec Hc);
          [apply incl_appl, incl_refl | reflexivity].
      * apply (inert_no_match t i c vowel_patterns Ec Hc);
          [apply incl_appr, incl_refl | reflexivity].
Qed.

(** X16: text outside the scheme comes back as it is: when no character
    of the text begins a consonant or vowel pattern, as in a text without
    ASCII characters other than spaces, e.g. one already in Devanagari,
    the scan returns the text unchanged, and so does [translate] where
    the rewriter finds no alias. *)
Theorem inert_text_unchanged (t : str) :
  Forall (fun c => inert c = true) t ->
  scan t = Ok t
  /\ (forall unicode_lower,
         first_alias unicode_lower t = None ->
         translate unicode_lower t = Ok t)
  /\ forall c, (128 <= c)%N \/ c = space -> inert c = true.
Proof.
  intros Hall.
  assert (S : scan t = Ok t).
  { rewrite (scan_run t _ (run_inert t Hall (length t) 0 (Nat.le_sub_l _ _))).
    f_equal. unfold slice_from. cbn [skipn].
    induction t as [|c r IH]; [reflexivity|]. cbn [map concat app].
    f_equal. apply IH. now inversion Hall. }
  split; [exact S|]. split.
  - intros ul Ha. now rewrite translate_scan, (rewrite_no_alias ul t Ha).
  - intros c Hc. unfold inert. apply negb_true_iff.
    apply not_true_iff_false. intros E.
    apply existsb_exists in E as [p [Hp E]].
    assert (A : forallb (fun p => match p with
                                  | a :: _ => (a <? 128)%N
                                              && negb (a =? space)%N
                                  | [] => true
                                  end)
                        (consonant_patterns ++ vowel_patterns) = true)
      by reflexivity.
    pose proof (forallb_In _ _ A _ Hp) as B. cbv beta in B.
    destruct p as [|a p]; [discriminate|].
    apply N.eqb_eq in E. subst a.
    apply andb_true_iff in B as [B1 B2].
    apply N.ltb_lt in B1. apply negb_true_iff, N.eqb_neq in B2.
    destruct Hc as [Hc | Hc]; [lia | contradiction].
Qed.

Lemma inert_text_unchanged_witness :
  translate (fun s => s) (U "राम 108") = Ok (U "राम 108").
Proof.
  destruct (inert_text_unchanged (U "राम 108")) as [_ [H _]].
  - repeat constructor.
  - apply H. reflexivity.
Defined.
